(** * Equalizer: traversal, frame update, replication and command handling

    A shallow embedding of the parts of the Equalizer sources that the
    specification speaks about:

    - [Traversal]: the visitor walk of [fabric::Server::accept]
      (the file-local template [_accept]) and the leaf [View::accept];
    - [FrameUpdate]: [CompoundUpdateDataVisitor::visit] and
      [_updateDrawFinish], with [Channel::setLastDrawCompound];
    - [ViewObject]: [View::serialize], [View::deserialize], the constructor
      and the destructor of [eq::View];
    - [ServerCommands]: [Server::_cmdCreateConfig] and
      [Server::_cmdDestroyConfig];
    - [ChannelInit]: the init half of the channel state machine;
    - [Atomics]: the lock-guarded emulation branch of [compareAndSwap]. *)

From Stdlib Require Import ZArith NArith List Bool Lia.
From stdpp Require Import base option list gmap.

Set Default Proof Using "Type*".

(** ** Visitor results

    The enum of visitorResult.h; the three enumerators are the ones the
    sources switch over. *)
Inductive VisitorResult : Type :=
  | TRAVERSE_CONTINUE
  | TRAVERSE_PRUNE
  | TRAVERSE_TERMINATE.

#[global] Instance VisitorResult_eq_dec : EqDecision VisitorResult.
Proof. solve_decision. Defined.

(** Modelled from the spec: the macro [EQASSERT] is defined in
    eq/base/debug.h, which is not among the sources.  It is a "checked
    invariant, not assumed": evaluation goes on when the condition holds
    and stops ([None]) when it does not. *)
Definition EQASSERT (cond : bool) : option unit :=
  if cond then Some tt else None.

Module Traversal.

(** A visitor: three callbacks over node identifiers, threading the
    visitor's own state [St]. *)
Record Visitor (St : Type) : Type := mkVisitor {
  visitPre  : nat -> St -> VisitorResult * St;
  visit     : nat -> St -> VisitorResult * St;
  visitPost : nat -> St -> VisitorResult * St
}.
Arguments mkVisitor {St} _ _ _.
Arguments visitPre {St} _ _ _.
Arguments visit {St} _ _ _.
Arguments visitPost {St} _ _ _.

(** How the [for] loop of [_accept] is left: by the [return] inside the
    switch, or by running off the end of the child vector with the current
    value of the local [result]. *)
Inductive LoopExit : Type :=
  | Returned  (r : VisitorResult)
  | Completed (result : VisitorResult).

Section Accept.
Context {St C : Type}.
Variable visitor : Visitor St.
(** The [accept( visitor )] of one child of the node. *)
Variable child_accept : C -> St -> VisitorResult * St.

(** The loop over [server->getConfigs()]: [TRAVERSE_TERMINATE] returns at
    once, [TRAVERSE_PRUNE] is stored in [result], and the loop goes on. *)
Fixpoint accept_children (configs : list C) (result : VisitorResult)
    (s : St) : LoopExit * St :=
  match configs with
  | [] => (Completed result, s)
  | i :: rest =>
      match child_accept i s with
      | (TRAVERSE_TERMINATE, s') => (Returned TRAVERSE_TERMINATE, s')
      | (TRAVERSE_PRUNE, s') => accept_children rest TRAVERSE_PRUNE s'
      | (TRAVERSE_CONTINUE, s') => accept_children rest result s'
      end
  end.

(** [template< class S, class V > VisitorResult _accept( S*, V& )]. *)
Definition _accept (server : nat) (configs : list C) (s : St)
    : VisitorResult * St :=
  let '(result, s1) := visitPre visitor server s in
  match result with
  | TRAVERSE_CONTINUE =>
      match accept_children configs result s1 with
      | (Returned r, s2) => (r, s2)
      | (Completed result', s2) =>
          match visitPost visitor server s2 with
          | (TRAVERSE_TERMINATE, s3) => (TRAVERSE_TERMINATE, s3)
          | (TRAVERSE_PRUNE, s3) => (TRAVERSE_PRUNE, s3)
          | (TRAVERSE_CONTINUE, s3) => (result', s3)
          end
      end
  | _ => (result, s1)
  end.

(** Every child accepted in turn, whatever it returns: the walk the prune
    law describes for a level on which nothing terminates. *)
Fixpoint accept_each (configs : list C) (s : St)
    : list VisitorResult * St :=
  match configs with
  | [] => ([], s)
  | i :: rest =>
      let '(r, s') := child_accept i s in
      let '(rs, s'') := accept_each rest s' in
      (r :: rs, s'')
  end.
End Accept.

(** The tree a traversal walks.  Modelled from the spec: of the [accept]
    methods of the hierarchy only the server's, which is [_accept], and the
    view's, which is the single call [visitor->visit( this )], are among
    the sources; section 4.5 gives every level the walk and the combination
    rule of [_accept].  So an inner node is walked by [_accept], its
    children standing where the configs stand, and a leaf by one call of
    [visit]. *)
#[warnings="-register-all"] Inductive Tree : Type :=
  | Leaf  (id : nat)
  | Inner (id : nat) (children : list Tree).

Fixpoint accept {St : Type} (v : Visitor St) (t : Tree) (s : St) {struct t}
    : VisitorResult * St :=
  match t with
  | Leaf n => visit v n s
  | Inner n children => _accept v (accept v) n children s
  end.

(** Node identifiers in the order a complete walk reaches them. *)
Fixpoint preorder (t : Tree) : list nat :=
  match t with
  | Leaf n => [n]
  | Inner n children => n :: flat_map preorder children
  end.

(** *** Observing a traversal

    A visitor is observed by wrapping it: every callback appends what it
    was called on and what it returned to a log kept next to the
    visitor's state. *)
Inductive Callback : Type := CbPre | CbVisit | CbPost.

Record Event : Type := mkEvent {
  ev_callback : Callback;
  ev_node     : nat;
  ev_result   : VisitorResult
}.

Definition record {St : Type} (cb : Callback)
    (f : nat -> St -> VisitorResult * St) (n : nat) (sl : St * list Event)
    : VisitorResult * (St * list Event) :=
  let '(r, s') := f n (fst sl) in
  (r, (s', snd sl ++ [mkEvent cb n r])).

Definition logged {St : Type} (v : Visitor St) : Visitor (St * list Event) :=
  mkVisitor (record CbPre (visitPre v))
            (record CbVisit (visit v))
            (record CbPost (visitPost v)).

(** The events a traversal of [t] produces from state [s]. *)
Definition trace_of {St : Type} (v : Visitor St) (t : Tree) (s : St)
    : list Event :=
  snd (snd (accept (logged v) t (s, []))).

(** A visitor over no state that answers [r] at the nodes in [at_nodes]
    and [TRAVERSE_CONTINUE] elsewhere, in all three callbacks. *)
Definition answer_at (r : VisitorResult) (at_nodes : list nat)
    : Visitor unit :=
  let f := fun (n : nat) (s : unit) =>
    (if existsb (Nat.eqb n) at_nodes then r else TRAVERSE_CONTINUE, s) in
  mkVisitor f f f.

(** No event of the trace is a [TRAVERSE_TERMINATE]. *)
Definition quiet (tr : list Event) : Prop :=
  Forall (fun e => ev_result e <> TRAVERSE_TERMINATE) tr.

(** Every event of the trace is a [TRAVERSE_CONTINUE]. *)
Definition all_continue (tr : list Event) : Prop :=
  Forall (fun e => ev_result e = TRAVERSE_CONTINUE) tr.

(** The trace ends with an event that terminates exactly when [r] does,
    and nothing before it terminates. *)
Definition ends_as (r : VisitorResult) (tr : list Event) : Prop :=
  exists tr0 e,
    tr = tr0 ++ [e] /\ quiet tr0 /\
    (ev_result e = TRAVERSE_TERMINATE <-> r = TRAVERSE_TERMINATE).

Definition observed (r : VisitorResult) (tr : list Event) : Prop :=
  ends_as r tr /\ (r = TRAVERSE_CONTINUE <-> all_continue tr).

Definition loop_observed (result : VisitorResult) (exit : LoopExit)
    (tr : list Event) : Prop :=
  match exit with
  | Returned r => r = TRAVERSE_TERMINATE /\ ends_as TRAVERSE_TERMINATE tr
  | Completed result' =>
      quiet tr /\ result' <> TRAVERSE_TERMINATE /\
      (result' = TRAVERSE_CONTINUE <->
       result = TRAVERSE_CONTINUE /\ all_continue tr)
  end.

(** The observed traversal computes what the plain one computes, and adds
    [tr] to the log. *)
Definition runs_as {St : Type} (v : Visitor St) (t : Tree) : Prop :=
  forall (s : St) (l : list Event), exists tr,
    accept (logged v) t (s, l)
    = (fst (accept v t s), (snd (accept v t s), l ++ tr))
    /\ observed (fst (accept v t s)) tr.

(** The reading of "PRUNE is sticky upward through one level" in which a
    prune raised two levels below a node leaves that node's own return
    value alone: with a visitor that prunes at the nodes of [pruned] only,
    a root and a child that do not prune themselves would make the root
    return [TRAVERSE_CONTINUE]. *)
Definition prune_stays_one_level : Prop :=
  forall (pruned : list nat) (root mid : nat) (below : list Tree),
    root ∉ pruned -> mid ∉ pruned ->
    fst (accept (answer_at TRAVERSE_PRUNE pruned)
                (Inner root [Inner mid below]) tt)
    = TRAVERSE_CONTINUE.

End Traversal.

(** ** The frame-update pass over the compound tree *)
Module FrameUpdate.
Import Traversal.

(** What the visitor calls on a compound.  compound.h and compound.cpp are
    not among the sources, so the operations are an interface over the
    state [CS] the compound tree keeps (inherited data, activation, the
    channel each compound references): what the listeners fired by
    [fireUpdatePre] do, what [updateInheritData] computes, and the three
    accessors [testInheritTask], [isActive] and [getChannel] (a null
    channel pointer is [None]).  [TASK_DRAW] is the task bit of eq::Task. *)
Class CompoundOps (CS : Type) : Type := mkCompoundOps {
  onUpdatePre     : nat -> N -> CS -> CS;
  inheritData     : nat -> N -> CS -> CS;
  testInheritTask : nat -> N -> CS -> bool;
  isActive        : nat -> CS -> bool;
  getChannel      : nat -> CS -> option nat;
  TASK_DRAW       : N
}.

(** The calls a visit makes on its compound, as they are observed. *)
Inductive Op : Type :=
  | OpFireUpdatePre     (compound : nat) (frameNumber : N)
  | OpUpdateInheritData (compound : nat) (frameNumber : N)
  | OpUpdateDrawFinish  (compound : nat).

(** The state the pass works on: the compound tree's own state, the
    [_lastDrawCompound] member of every channel (absent: a null pointer)
    and the calls made so far. *)
Record World (CS : Type) : Type := mkWorld {
  compounds        : CS;
  lastDrawCompound : gmap nat nat;
  calls            : list Op
}.
Arguments mkWorld {CS} _ _ _.
Arguments compounds {CS} _.
Arguments lastDrawCompound {CS} _.
Arguments calls {CS} _.

(** [Channel::setLastDrawCompound] and [Channel::getLastDrawCompound]. *)
Definition setLastDrawCompound {CS : Type} (channel compound : nat)
    (w : World CS) : World CS :=
  mkWorld (compounds w) (<[channel := compound]> (lastDrawCompound w))
          (calls w).

Definition getLastDrawCompound {CS : Type} (channel : nat) (w : World CS)
    : option nat :=
  lastDrawCompound w !! channel.

(** [compound->fireUpdatePre( _frameNumber )]. *)
Definition fireUpdatePre {CS : Type} `{!CompoundOps CS} (compound : nat)
    (frameNumber : N) (w : World CS) : World CS :=
  mkWorld (onUpdatePre compound frameNumber (compounds w))
          (lastDrawCompound w)
          (calls w ++ [OpFireUpdatePre compound frameNumber]).

(** [compound->updateInheritData( _frameNumber )]. *)
Definition updateInheritData {CS : Type} `{!CompoundOps CS} (compound : nat)
    (frameNumber : N) (w : World CS) : World CS :=
  mkWorld (inheritData compound frameNumber (compounds w))
          (lastDrawCompound w)
          (calls w ++ [OpUpdateInheritData compound frameNumber]).

(** [CompoundUpdateDataVisitor::_updateDrawFinish].  The early [return] is
    taken before the channel is looked at; past it the channel pointer is
    dereferenced unchecked, which has no outcome on a null pointer. *)
Definition _updateDrawFinish {CS : Type} `{!CompoundOps CS} (compound : nat)
    (w0 : World CS) : option (World CS) :=
  let w := mkWorld (compounds w0) (lastDrawCompound w0)
                   (calls w0 ++ [OpUpdateDrawFinish compound]) in
  if negb (testInheritTask compound TASK_DRAW (compounds w))
     || negb (isActive compound (compounds w))
  then Some w
  else
    channel ← getChannel compound (compounds w);
    Some (setLastDrawCompound channel compound w).

(** [CompoundUpdateDataVisitor::visit] for the visitor constructed with
    [frameNumber]. *)
Definition visit {CS : Type} `{!CompoundOps CS} (frameNumber : N)
    (compound : nat) (w : World CS) : option (VisitorResult * World CS) :=
  let w1 := fireUpdatePre compound frameNumber w in
  let w2 := updateInheritData compound frameNumber w1 in
  w3 ← _updateDrawFinish compound w2;
  Some (TRAVERSE_CONTINUE, w3).

(** The visit as a callback of the traversal: a visit without outcome
    ends the pass. *)
Definition visit_callback {CS : Type} `{!CompoundOps CS} (frameNumber : N)
    (compound : nat) (ow : option (World CS))
    : VisitorResult * option (World CS) :=
  match ow ≫= visit frameNumber compound with
  | Some (r, w') => (r, Some w')
  | None => (TRAVERSE_TERMINATE, None)
  end.

(** Modelled from the spec: [Compound::accept] and the callbacks the
    visitor inherits from [CompoundVisitor] are not among the sources.  The
    pass walks the compound tree top-down; every compound, inner or leaf,
    is handed to [visit] when the walk reaches it, and nothing is done on
    the way back up. *)
Definition CompoundUpdateDataVisitor {CS : Type} `{!CompoundOps CS}
    (frameNumber : N) : Visitor (option (World CS)) :=
  mkVisitor (visit_callback frameNumber)
            (visit_callback frameNumber)
            (fun _ ow => (TRAVERSE_CONTINUE, ow)).

Definition updateData {CS : Type} `{!CompoundOps CS} (frameNumber : N)
    (tree : Tree) (w : World CS) : VisitorResult * option (World CS) :=
  accept (CompoundUpdateDataVisitor frameNumber) tree (Some w).

(** The visits of the compounds of [order], one after the other; a visit
    without outcome ends them. *)
Definition visit_each {CS : Type} `{!CompoundOps CS} (frameNumber : N)
    (order : list nat) (ow : option (World CS)) : option (World CS) :=
  foldl (fun ow c => w ← ow; snd <$> visit frameNumber c w) ow order.

(** What the traversal returns for a pass that ended in [ow]. *)
Definition pass_result {CS : Type} (ow : option (World CS)) : VisitorResult :=
  match ow with
  | Some _ => TRAVERSE_CONTINUE
  | None => TRAVERSE_TERMINATE
  end.

(** The pass over [t] is the sequence of the visits of its compounds, in
    pre-order; it returns [TRAVERSE_CONTINUE] when all of them have an
    outcome. *)
Definition pass_is_visits {CS : Type} `{!CompoundOps CS} (frameNumber : N)
    (t : Tree) : Prop :=
  forall ow : option (World CS),
    accept (CompoundUpdateDataVisitor frameNumber) t ow
    = (pass_result (visit_each frameNumber (preorder t) ow),
       visit_each frameNumber (preorder t) ow).

(** The compound state a visit of [compound] leaves behind. *)
Definition visited {CS : Type} `{!CompoundOps CS} (frameNumber : N)
    (compound : nat) (st : CS) : CS :=
  inheritData compound frameNumber (onUpdatePre compound frameNumber st).

(** Whether [compound], in compound state [st], has the draw task among
    its inherited tasks and is active. *)
Definition draws {CS : Type} `{!CompoundOps CS} (compound : nat) (st : CS)
    : bool :=
  testInheritTask compound TASK_DRAW st && isActive compound st.

(** The draw participants of [channel] among the compounds of [order], in
    that order, each judged in the state its own visit computes. *)
Fixpoint draw_participants {CS : Type} `{!CompoundOps CS} (frameNumber : N)
    (channel : nat) (order : list nat) (st : CS) : list nat :=
  match order with
  | [] => []
  | c :: rest =>
      let st' := visited frameNumber c st in
      (if draws c st' && bool_decide (getChannel c st' = Some channel)
       then [c] else [])
      ++ draw_participants frameNumber channel rest st'
  end.

(** Every compound of [order] that draws references a channel. *)
Fixpoint channels_present {CS : Type} `{!CompoundOps CS} (frameNumber : N)
    (order : list nat) (st : CS) : bool :=
  match order with
  | [] => true
  | c :: rest =>
      let st' := visited frameNumber c st in
      (negb (draws c st') || bool_decide (is_Some (getChannel c st')))
      && channels_present frameNumber rest st'
  end.

(** The calls of one visit. *)
Definition visit_calls (frameNumber : N) (compound : nat) : list Op :=
  [ OpFireUpdatePre compound frameNumber;
    OpUpdateInheritData compound frameNumber;
    OpUpdateDrawFinish compound ].

(** *** A compound tree to run the pass on

    Modelled from the spec: every compound has a task mask of its own or
    inherits its parent's ("compute inherited task bitmask ... by combining
    this compound's own overrides with its parent's already-computed
    inherited values"). *)
Record CompoundData : Type := mkCompoundData {
  cd_parent  : option nat;
  cd_tasks   : option N;
  cd_inherit : N;
  cd_active  : bool;
  cd_channel : option nat
}.

Definition inherit_tasks (c : nat) (st : gmap nat CompoundData) : N :=
  match st !! c with
  | Some d => cd_inherit d
  | None => 0%N
  end.

Definition sample_inheritData (c : nat) (frameNumber : N)
    (st : gmap nat CompoundData) : gmap nat CompoundData :=
  match st !! c with
  | Some d =>
      let tasks :=
        match cd_tasks d, cd_parent d with
        | Some t, _ => t
        | None, Some p => inherit_tasks p st
        | None, None => 0%N
        end in
      <[c := mkCompoundData (cd_parent d) (cd_tasks d) tasks (cd_active d)
                            (cd_channel d)]> st
  | None => st
  end.

#[local] Instance sample_ops : CompoundOps (gmap nat CompoundData) :=
  mkCompoundOps (gmap nat CompoundData)
    (fun _ _ st => st)
    sample_inheritData
    (fun c task st => negb (N.land (inherit_tasks c st) task =? 0)%N)
    (fun c st => match st !! c with Some d => cd_active d | None => false end)
    (fun c st => st !! c ≫= cd_channel)
    16%N.

(** Scenario 2 of the spec: [root(task=DRAW) -> child(task=INHERIT)], both
    active and both on channel 7. *)
Definition scenario_compounds : gmap nat CompoundData :=
  <[0 := mkCompoundData None (Some 16%N) 0%N true (Some 7)]>
  (<[1 := mkCompoundData (Some 0) None 0%N true (Some 7)]> ∅).

Definition scenario_tree : Tree := Inner 0 [Leaf 1].

Definition scenario_world : World (gmap nat CompoundData) :=
  mkWorld scenario_compounds ∅ [].

End FrameUpdate.

(** ** eq::View: replication payload and life cycle *)
Module ViewObject.

(** A data stream, as the 32-bit words written to it. *)
Definition DataStream : Type := list N.

(** [eq::Viewport]: the four floats x, y, w, h, kept as their bit
    patterns (the stream operators copy them, nothing computes on them). *)
Record Viewport : Type := mkViewport {
  vp_x : N;
  vp_y : N;
  vp_w : N;
  vp_h : N
}.

(** [os << _viewport]. *)
Definition put_viewport (os : DataStream) (vp : Viewport) : DataStream :=
  os ++ [vp_x vp; vp_y vp; vp_w vp; vp_h vp].

(** [is >> _viewport]: four words are taken off the stream; reading past
    its end has no outcome. *)
Definition get_viewport (istr : DataStream) : option (Viewport * DataStream) :=
  match istr with
  | x :: y :: w :: h :: rest => Some (mkViewport x y w h, rest)
  | _ => None
  end.

(** What view.h and the base class [Frustum] supply (neither is among the
    sources): the words [Frustum::serialize] writes for a dirty mask, how
    [Frustum::deserialize] reads them back, and the position of the
    [DIRTY_VIEWPORT] bit in the 64-bit mask. *)
Class ViewBase (F : Type) : Type := mkViewBase {
  Frustum_serialize   : F -> N -> DataStream;
  Frustum_deserialize : F -> DataStream -> N -> option (F * DataStream);
  viewport_bit        : N
}.

Definition DIRTY_VIEWPORT {F : Type} `{!ViewBase F} : N :=
  N.shiftl 1 viewport_bit.

(** [Frustum::deserialize] takes back exactly what [Frustum::serialize]
    wrote for the same mask. *)
Definition frustum_reads_back (F : Type) `{!ViewBase F} : Prop :=
  forall (f f0 : F) (dirtyBits : N) (rest : DataStream),
    exists f' : F,
      Frustum_deserialize f0 (Frustum_serialize f dirtyBits ++ rest) dirtyBits
      = Some (f', rest).

(** An [eq::View]: the frustum it derives from, [_viewport], and the
    back-pointer [_layout] (null: [None]). *)
Record View (F : Type) : Type := mkView {
  frustum   : F;
  _viewport : Viewport;
  _layout   : option nat
}.
Arguments mkView {F} _ _ _.
Arguments frustum {F} _.
Arguments _viewport {F} _.
Arguments _layout {F} _.

(** The test [dirtyBits & DIRTY_VIEWPORT]. *)
Definition viewport_dirty {F : Type} `{!ViewBase F} (dirtyBits : N) : bool :=
  negb (N.land dirtyBits DIRTY_VIEWPORT =? 0)%N.

(** [View::serialize]. *)
Definition serialize {F : Type} `{!ViewBase F} (v : View F) (os : DataStream)
    (dirtyBits : N) : DataStream :=
  let os1 := os ++ Frustum_serialize (frustum v) dirtyBits in
  if viewport_dirty dirtyBits then put_viewport os1 (_viewport v) else os1.

(** [View::deserialize]. *)
Definition deserialize {F : Type} `{!ViewBase F} (v : View F)
    (istr : DataStream) (dirtyBits : N) : option (View F * DataStream) :=
  '(f, is1) ← Frustum_deserialize (frustum v) istr dirtyBits;
  if viewport_dirty dirtyBits
  then '(vp, is2) ← get_viewport is1; Some (mkView f vp (_layout v), is2)
  else Some (mkView f (_viewport v) (_layout v), is1).

(** [View::getViewport]. *)
Definition getViewport {F : Type} (v : View F) : Viewport := _viewport v.

(** [View::View()]: [_layout( 0 )]; the frustum and the viewport are
    default-constructed. *)
Definition View_ctor {F : Type} (f : F) (vp : Viewport) : View F :=
  mkView f vp None.

(** [View::~View()]: the assertion, then [_layout = 0]. *)
Definition View_dtor {F : Type} (v : View F) : option (View F) :=
  _ ← EQASSERT (bool_decide (_layout v = None));
  Some (mkView (frustum v) (_viewport v) None).

(** A frustum of one word, written when bit 0 of the mask is set; the
    viewport bit is bit 3. *)
#[local] Instance sample_base : ViewBase N :=
  mkViewBase N
    (fun f dirtyBits => if N.testbit dirtyBits 0 then [f] else [])
    (fun f0 istr dirtyBits =>
       if N.testbit dirtyBits 0
       then match istr with f :: rest => Some (f, rest) | [] => None end
       else Some (f0, istr))
    3%N.

End ViewObject.

(** ** fabric::Server: the create-config and destroy-config handlers *)
Module ServerCommands.

(** A config as the handlers see it: [getID()] and
    [getIAttribute( CFG::IATTR_ROBUSTNESS )]. *)
Record Config : Type := mkConfig {
  getID         : N;
  getRobustness : Z
}.

#[global] Instance Config_eq_dec : EqDecision Config.
Proof. solve_decision. Defined.

(** The two request packets, with the fields the handlers read. *)
Record ServerCreateConfigPacket : Type := mkCreatePacket {
  configVersion    : N * N;
  create_requestID : N
}.

Record ServerDestroyConfigPacket : Type := mkDestroyPacket {
  configID          : N;
  destroy_requestID : N
}.

Inductive ReplyCommand : Type :=
  | CMD_CONFIG_CREATE_REPLY
  | CMD_SERVER_DESTROY_CONFIG_REPLY.

Record ReplyPacket : Type := mkReply {
  reply_command   : ReplyCommand;
  reply_requestID : N
}.

(** Modelled from the spec: the constructors of the reply packets are in
    the packet headers, which are not among the sources; "Reply packets
    echo the originating request id". *)
Definition ConfigCreateReplyPacket (request : ServerCreateConfigPacket)
    : ReplyPacket :=
  mkReply CMD_CONFIG_CREATE_REPLY (create_requestID request).

Definition ServerDestroyConfigReplyPacket
    (request : ServerDestroyConfigPacket) : ReplyPacket :=
  mkReply CMD_SERVER_DESTROY_CONFIG_REPLY (destroy_requestID request).

(** A command: the packet it carries and the node it came from
    ([command.getNode()]). *)
Record Command (P : Type) : Type := mkCommand {
  packet   : P;
  fromNode : nat
}.
Arguments mkCommand {P} _ _.
Arguments packet {P} _.
Arguments fromNode {P} _.

(** The server: its [_configs] vector and the state [E] of what it works
    with (node factory, local node, process-wide attributes). *)
Record Server (E : Type) : Type := mkServer {
  _configs : list Config;
  env      : E
}.
Arguments mkServer {E} _ _.
Arguments _configs {E} _.
Arguments env {E} _.

(** What the handlers call outside the server; none of it is among the
    sources.  The calls on a config get at the server (a config registers
    with and leaves its server as it is constructed and destroyed, and
    mapping fills in the very object the server holds), and [mapObject]
    hands back the config as mapped; [EQ_UNDEFINED_UINT32] is the sentinel
    of an absent request id. *)
Class Collaborators (E : Type) : Type := mkCollaborators {
  createConfig        : Server E -> Config * Server E;
  mapObject           : Config -> N * N -> Server E -> Config * Server E;
  setGlobalRobustness : Z -> E -> E;
  unmapObject         : Config -> Server E -> Server E;
  releaseConfig       : Config -> Server E -> Server E;
  EQ_UNDEFINED_UINT32 : N
}.

(** Erasing the first occurrence, as [_configs.erase( i )] does for the
    iterator [stde::find] returned. *)
Fixpoint erase_first (config : Config) (configs : list Config)
    : list Config :=
  match configs with
  | [] => []
  | c :: rest =>
      if decide (c = config) then rest else c :: erase_first config rest
  end.

(** [Server::_removeConfig]. *)
Definition _removeConfig {E : Type} (config : Config) (server : Server E)
    : bool * Server E :=
  if bool_decide (config ∈ _configs server)
  then (true, mkServer (erase_first config (_configs server)) (env server))
  else (false, server).

(** The replies a handler sent, each with the node it went to
    ([command.getNode()->send( reply )]). *)
Definition Sent : Type := list (nat * ReplyPacket).

(** [Server::_cmdCreateConfig]. *)
Definition _cmdCreateConfig {E : Type} `{!Collaborators E}
    (command : Command ServerCreateConfigPacket) (server : Server E)
    : bool * Server E * Sent :=
  let packet := packet command in
  let '(config, server1) := createConfig server in
  let '(config, server2) := mapObject config (configVersion packet) server1 in
  let e3 := setGlobalRobustness (getRobustness config) (env server2) in
  let server3 := mkServer (_configs server2) e3 in
  if bool_decide (create_requestID packet ≠ EQ_UNDEFINED_UINT32)
  then (true, server3, [(fromNode command, ConfigCreateReplyPacket packet)])
  else (true, server3, []).

(** The search loop of [_cmdDestroyConfig]: the first config whose id is
    the packet's, or the null pointer. *)
Definition find_config (id : N) (configs : list Config) : option Config :=
  find (fun c => bool_decide (getID c = id)) configs.

(** [Server::_cmdDestroyConfig]. *)
Definition _cmdDestroyConfig {E : Type} `{!Collaborators E}
    (command : Command ServerDestroyConfigPacket) (server : Server E)
    : option (bool * Server E * Sent) :=
  let packet := packet command in
  let found := find_config (configID packet) (_configs server) in
  _ ← EQASSERT (bool_decide (is_Some found));
  config ← found;
  let server1 := unmapObject config server in
  let server2 := releaseConfig config server1 in
  if bool_decide (destroy_requestID packet ≠ EQ_UNDEFINED_UINT32)
  then Some (true, server2,
             [(fromNode command, ServerDestroyConfigReplyPacket packet)])
  else Some (true, server2, []).

(** A server environment to run the handlers in: the factory numbers the
    configs it makes, a new config is pushed onto [_configs] and a
    released one leaves it through [_removeConfig]; the other calls leave
    no trace.  The sentinel is the all-ones 32-bit word. *)
#[local] Instance sample_env : Collaborators N :=
  mkCollaborators N
    (fun server =>
       let config := mkConfig (env server) 0 in
       (config,
        mkServer (_configs server ++ [config]) (N.succ (env server))))
    (fun config _ server => (config, server))
    (fun _ e => e)
    (fun _ server => server)
    (fun config server => snd (_removeConfig config server))
    4294967295%N.

End ServerCommands.

(** ** server::Channel: the init half of the state machine *)
Module ChannelInit.

(** [Channel::State]. *)
Inductive State : Type :=
  | STATE_STOPPED
  | STATE_INITIALIZING
  | STATE_INIT_FAILED
  | STATE_RUNNING
  | STATE_STOPPING
  | STATE_STOP_FAILED.

#[global] Instance State_eq_dec : EqDecision State.
Proof. solve_decision. Defined.

(** What a channel sends to its remote instance. *)
Inductive Request : Type :=
  | ConfigInit (initID : N)
  | ConfigExit.

(** What comes back, one constructor for each command handler the class
    declares: [_cmdConfigInitReply], [_cmdConfigExitReply],
    [_cmdSetNearFar] and [_cmdFrameFinishReply]. *)
Inductive Incoming : Type :=
  | ConfigInitReply (result : bool)
  | ConfigExitReply (result : bool)
  | SetNearFar
  | FrameFinishReply.

(** The monitored [_state] and the requests sent so far. *)
Record Channel : Type := mkChannel {
  _state : State;
  sent   : list Request
}.

(** [Channel::getState]. *)
Definition getState (c : Channel) : State := _state c.

(** Modelled from the spec: channel.cpp is not among the sources.
    "[startConfigInit] sets state to INITIALIZING, sends an init command to
    every remote instance, and returns without blocking". *)
Definition startConfigInit (initID : N) (c : Channel) : Channel :=
  mkChannel STATE_INITIALIZING (sent c ++ [ConfigInit initID]).

(** Modelled from the spec: the handlers of the incoming commands follow
    the transitions of section 4.4, [INITIALIZING -(initDone)-> RUNNING |
    INIT_FAILED] and [STOPPING -(exitDone)-> STOPPED | STOP_FAILED]; a
    command that is unexpected in the current state is dropped and leaves
    the state alone. *)
Definition deliver (c : Channel) (cmd : Incoming) : Channel :=
  match cmd, _state c with
  | ConfigInitReply true, STATE_INITIALIZING => mkChannel STATE_RUNNING (sent c)
  | ConfigInitReply false, STATE_INITIALIZING =>
      mkChannel STATE_INIT_FAILED (sent c)
  | ConfigExitReply true, STATE_STOPPING => mkChannel STATE_STOPPED (sent c)
  | ConfigExitReply false, STATE_STOPPING =>
      mkChannel STATE_STOP_FAILED (sent c)
  | _, _ => c
  end.

(** Modelled from the spec: waiting on the monitor until the state differs
    from [value].  The waiter sees the state after each command the other
    thread handles; when the commands run out while the state still is
    [value] the wait never ends ([None]). *)
Fixpoint waitNE (value : State) (incoming : list Incoming) (c : Channel)
    : option (Channel * list Incoming) :=
  if decide (_state c = value) then
    match incoming with
    | [] => None
    | cmd :: rest => waitNE value rest (deliver c cmd)
    end
  else Some (c, incoming).

(** Modelled from the spec: "[syncConfigInit] blocks on the monitored
    state variable until it leaves INITIALIZING, then returns success iff
    state is RUNNING". *)
Definition syncConfigInit (incoming : list Incoming) (c : Channel)
    : option (bool * Channel * list Incoming) :=
  '(c', rest) ← waitNE STATE_INITIALIZING incoming c;
  Some (bool_decide (_state c' = STATE_RUNNING), c', rest).

(** The states a channel can be in from [startConfigInit] until an exit
    is started. *)
Definition init_phase (c : Channel) : Prop :=
  _state c = STATE_INITIALIZING \/ _state c = STATE_RUNNING
  \/ _state c = STATE_INIT_FAILED.

End ChannelInit.

(** ** compareAndSwap: the emulation branch *)
Module Atomics.

(** What the emulation branch works on: the function's own static
    [SpinLock guard] (held or free) and memory, a finite map of cells. *)
Record Emulation (V : Type) : Type := mkEmulation {
  guard  : bool;
  memory : gmap N V
}.
Arguments mkEmulation {V} _ _.
Arguments guard {V} _.
Arguments memory {V} _.

(** [ScopedMutex< SpinLock > lock( guard )]: the lock is taken where the
    scope is entered.  A guard that is held is held by another caller;
    the one thread of control modelled here then spins for ever
    ([None]). *)
Definition lock {V : Type} (st : Emulation V) : option (Emulation V) :=
  if guard st then None else Some (mkEmulation true (memory st)).

(** The destructor of the scoped lock, run on every way out of the
    scope. *)
Definition unlock {V : Type} (st : Emulation V) : Emulation V :=
  mkEmulation false (memory st).

(** [compareAndSwap( addr, old, nw )] as the branch without a hardware
    primitive computes it, for a cell type and a value type that are the
    same.  An [addr] that points at no cell has no outcome. *)
Definition compareAndSwap {V : Type} `{!EqDecision V} (addr : N) (old nw : V)
    (st : Emulation V) : option (bool * Emulation V) :=
  locked ← lock st;
  cell ← memory locked !! addr;
  if decide (cell = old)
  then Some (true, unlock (mkEmulation (guard locked)
                             (<[addr := nw]> (memory locked))))
  else Some (false, unlock locked).

End Atomics.

(** ** Reading a traversal off its trace *)
Module TraversalTrace.
Import Traversal.

(** The events the loop of [_accept] over [children] produces from state
    [s], entered with [result]. *)
Definition children_trace {St : Type} (v : Visitor St) (children : list Tree)
    (result : VisitorResult) (s : St) : list Event :=
  snd (snd (accept_children (accept (logged v)) children result (s, []))).

(** Observing a traversal changes neither its result nor the visitor's
    state, and the events of the traversal are added to whatever log it
    starts with. *)
Definition logs_trace {St : Type} (v : Visitor St) (t : Tree) : Prop :=
  forall (s : St) (l : list Event),
    accept (logged v) t (s, l)
    = (fst (accept v t s), (snd (accept v t s), l ++ trace_of v t s)).

Definition logs_children_trace {St : Type} (v : Visitor St)
    (children : list Tree) : Prop :=
  forall (result : VisitorResult) (s : St) (l : list Event),
    accept_children (accept (logged v)) children result (s, l)
    = (fst (accept_children (accept v) children result s),
       (snd (accept_children (accept v) children result s),
        l ++ children_trace v children result s)).

(** The nodes a trace shows as handed to [visitPre] or to [visit], in
    the order of the calls. *)
Fixpoint reached (tr : list Event) : list nat :=
  match tr with
  | [] => []
  | e :: rest =>
      match ev_callback e with
      | CbPost => reached rest
      | _ => ev_node e :: reached rest
      end
  end.

(** The number of [visitPre] calls of a trace that returned
    [TRAVERSE_CONTINUE], and the number of its [visitPost] calls. *)
Fixpoint entered (tr : list Event) : nat :=
  match tr with
  | [] => 0
  | e :: rest =>
      match ev_callback e, ev_result e with
      | CbPre, TRAVERSE_CONTINUE => S (entered rest)
      | _, _ => entered rest
      end
  end.

Fixpoint left (tr : list Event) : nat :=
  match tr with
  | [] => 0
  | e :: rest =>
      match ev_callback e with
      | CbPost => S (left rest)
      | _ => left rest
      end
  end.

End TraversalTrace.


(** ** fabric::Server: the vector of configs *)
Module ServerConfigs.
Import ServerCommands.

(** [Server::_addConfig].  [getServer] is the server a config points back
    to and [this] the server the config is added to; configs are compared
    as the pointers they are, a [Config] value standing for the pointer. *)
Definition _addConfig {E : Type} (getServer : Config -> nat) (this : nat)
    (config : Config) (server : Server E) : option (Server E) :=
  _ ← EQASSERT (bool_decide (getServer config = this));
  _ ← EQASSERT (bool_decide (config ∉ _configs server));
  Some (mkServer (_configs server ++ [config]) (env server)).

(** [Server::~Server]: [_client = 0], then the assertion that no config
    is left. *)
Definition Server_dtor {E : Type} (server : Server E) : option unit :=
  EQASSERT (bool_decide (_configs server = [])).

End ServerConfigs.


From Stdlib Require Ascii String.

(** ** eq::Eye and its output operator *)
Module EyePass.
Import Ascii.
Import (notations) String.

(** The enumerators of [enum Eye], by value. *)
Definition EYE_CYCLOP : N := 0.
Definition EYE_LEFT : N := 1.
Definition EYE_RIGHT : N := 2.
Definition EYE_ALL : N := 3.

(** What the operator comes to: the stream with the text written to it,
    or [EQABORT( info )].  The macro is not among the sources; reaching
    it is kept as an outcome of its own. *)
Inductive Outcome : Type :=
  | Written (os : list ascii)
  | Aborted (info : list ascii).

(** [operator << ( std::ostream&, const Eye& )]: the switch, case by
    case in the order of the source; [EYE_ALL] and every value that is no
    enumerator fall to [default]. *)
Definition print_eye (os : list ascii) (eye : N) : Outcome :=
  if (eye =? EYE_LEFT)%N
  then Written (os ++ String.list_ascii_of_string "left eye"%string)
  else if (eye =? EYE_RIGHT)%N
  then Written (os ++ String.list_ascii_of_string "right eye"%string)
  else if (eye =? EYE_CYCLOP)%N
  then Written (os ++ String.list_ascii_of_string "cyclop eye"%string)
  else Aborted (String.list_ascii_of_string "Invalid eye value"%string).

End EyePass.

(** ** The output operator of server::SwapBarrier *)
Module SwapBarrierPrint.
Import Ascii.
Import (notations) String.

Definition quote : ascii := "034"%char.
Definition newline : ascii := "010"%char.

(** [operator << ( ostream&, const SwapBarrier* )].  A barrier is the
    name [getName()] returns, a null pointer is [None]; the manipulators
    [disableFlush] and [enableFlush] write no character, [endl] writes
    the newline. *)
Definition print_swapBarrier (os : list ascii)
    (swapBarrier : option (list ascii)) : list ascii :=
  match swapBarrier with
  | None => os
  | Some name =>
      os ++ String.list_ascii_of_string "swapBarrier { name "%string
         ++ [quote] ++ name ++ [quote]
         ++ String.list_ascii_of_string " }"%string ++ [newline]
  end.

End SwapBarrierPrint.

(** ** server::Channel: the integer attributes *)
Module ChannelAttributes.

(** [Channel::setIAttribute]: [_iAttributes[attr] = value] on the array
    of [eq::Channel::IATTR_ALL] attributes; an index past the array has no
    outcome. *)
Definition setIAttribute (attr : nat) (value : Z) (_iAttributes : list Z)
    : option (list Z) :=
  if decide (attr < length _iAttributes)
  then Some (<[attr := value]> _iAttributes)
  else None.

(** [Channel::getIAttribute]: [return _iAttributes[attr]]. *)
Definition getIAttribute (attr : nat) (_iAttributes : list Z) : option Z :=
  _iAttributes !! attr.

End ChannelAttributes.


(** * Properties *)

(** ** The traversal laws *)
Module TraversalLaws.
Import Traversal.

(** Induction over trees with the hypothesis on every child. *)
Lemma Tree_children_ind (P : Tree -> Prop) :
  (forall n, P (Leaf n)) ->
  (forall n children, Forall P children -> P (Inner n children)) ->
  forall t, P t.
Proof.
  intros Hleaf Hinner. fix IH 1. intros [n | n children].
  - apply Hleaf.
  - apply Hinner. induction children as [| c children IHc]; constructor.
    + apply IH.
    + exact IHc.
Qed.

Lemma all_continue_quiet tr : all_continue tr -> quiet tr.
Proof.
  unfold all_continue, quiet. intros H. eapply Forall_impl; [exact H |].
  intros e He. simpl in He. congruence.
Qed.

Lemma quiet_app tr1 tr2 : quiet tr1 -> quiet tr2 -> quiet (tr1 ++ tr2).
Proof. unfold quiet. intros H1 H2. apply Forall_app. split; assumption. Qed.

Lemma ends_as_single cb n r : ends_as r [mkEvent cb n r].
Proof.
  exists [], (mkEvent cb n r). split; [reflexivity |]. split.
  - constructor.
  - reflexivity.
Qed.

Lemma observed_single cb n r : observed r [mkEvent cb n r].
Proof.
  split; [apply ends_as_single |]. unfold all_continue. split.
  - intros ->. constructor; [reflexivity | constructor].
  - intros H. inversion H; subst. assumption.
Qed.

Lemma ends_as_quiet r tr :
  ends_as r tr -> r <> TRAVERSE_TERMINATE -> quiet tr.
Proof.
  intros (tr0 & e & -> & Hq & Hiff) Hr. apply quiet_app; [assumption |].
  constructor; [| constructor]. intros He. apply Hr, Hiff, He.
Qed.

Lemma ends_as_prepend r tr1 tr2 :
  quiet tr1 -> ends_as r tr2 -> ends_as r (tr1 ++ tr2).
Proof.
  intros Hq (tr0 & e & -> & Hq0 & Hiff). exists (tr1 ++ tr0), e.
  split; [apply app_assoc |]. split; [apply quiet_app; assumption | exact Hiff].
Qed.

Lemma ends_as_not_quiet tr : ends_as TRAVERSE_TERMINATE tr -> ~ quiet tr.
Proof.
  intros (tr0 & e & -> & _ & Hiff) Hq. unfold quiet in Hq.
  apply Forall_app in Hq as [_ Hq]. inversion Hq; subst.
  tauto.
Qed.

(** A trace that ends with a [visitPost] event that does not continue is
    not one of continues only. *)
Ltac post_not_continue :=
  let Hall := fresh "Hall" in
  let Htail := fresh "Htail" in
  unfold all_continue; intros Hall;
  inversion Hall as [| ? ? _ Htail]; subst;
  apply Forall_app in Htail as [_ Htail];
  inversion Htail; subst; discriminate.

Section Observation.
Context {St : Type} (v : Visitor St).

(** The loop over the children, observed. *)
Lemma accept_children_runs_as (children : list Tree) :
  Forall (runs_as v) children ->
  forall (result : VisitorResult) (s : St) (l : list Event),
    result <> TRAVERSE_TERMINATE ->
    exists tr,
      accept_children (accept (logged v)) children result (s, l)
      = (fst (accept_children (accept v) children result s),
         (snd (accept_children (accept v) children result s), l ++ tr))
      /\ loop_observed result
           (fst (accept_children (accept v) children result s)) tr.
Proof.
  induction 1 as [| c children Hc _ IH]; intros result s l Hres.
  - exists []. simpl. rewrite app_nil_r. split; [reflexivity |].
    split; [constructor |]. split; [assumption |].
    split; [intros ->; split; [reflexivity | constructor] | tauto].
  - destruct (Hc s l) as (tr & Hrun & [Hends Hcont]).
    simpl. rewrite Hrun.
    destruct (accept v c s) as [r s1]; simpl in *.
    destruct r.
    + assert (Hq : quiet tr)
        by (apply (ends_as_quiet _ _ Hends); discriminate).
      destruct (IH result s1 (l ++ tr) Hres) as (tr' & Hloop & Hobs).
      exists (tr ++ tr'). rewrite Hloop, app_assoc. split; [reflexivity |].
      destruct (fst (accept_children (accept v) children result s1))
        as [r' | r']; simpl in *.
      * destruct Hobs as [-> Hobs]. split; [reflexivity |].
        apply ends_as_prepend; assumption.
      * destruct Hobs as (Hq' & Hr' & Hiff).
        split; [apply quiet_app; assumption |].
        split; [assumption |]. rewrite Hiff. unfold all_continue.
        rewrite Forall_app. unfold all_continue in Hcont. tauto.
    + assert (Hq : quiet tr)
        by (apply (ends_as_quiet _ _ Hends); discriminate).
      destruct (IH TRAVERSE_PRUNE s1 (l ++ tr)) as (tr' & Hloop & Hobs);
        [discriminate |].
      exists (tr ++ tr'). rewrite Hloop, app_assoc. split; [reflexivity |].
      destruct (fst (accept_children (accept v) children TRAVERSE_PRUNE s1))
        as [r' | r']; simpl in *.
      * destruct Hobs as [-> Hobs]. split; [reflexivity |].
        apply ends_as_prepend; assumption.
      * destruct Hobs as (Hq' & Hr' & Hiff).
        split; [apply quiet_app; assumption |].
        split; [assumption |]. split.
        -- intros Hc'. apply Hiff in Hc' as [Hc' _]. discriminate.
        -- intros [_ Hall]. unfold all_continue in Hall.
           apply Forall_app in Hall as [Hall _]. apply Hcont in Hall.
           discriminate.
    + exists tr. split; [reflexivity |]. simpl.
      split; [reflexivity | assumption].
Qed.

(** Every traversal, observed. *)
Lemma accept_runs_as (t : Tree) : runs_as v t.
Proof.
  induction t as [n | n children IH] using Tree_children_ind; intros s l.
  - exists [mkEvent CbVisit n (fst (visit v n s))]. simpl. unfold record. simpl.
    destruct (visit v n s) as [r s']. simpl.
    split; [reflexivity | apply observed_single].
  - simpl. unfold _accept. simpl. unfold record at 1. simpl.
    destruct (visitPre v n s) as [r s1]. destruct r;
      try (eexists; split; [reflexivity | apply observed_single]).
    set (pre := mkEvent CbPre n TRAVERSE_CONTINUE).
    destruct (accept_children_runs_as children IH TRAVERSE_CONTINUE s1
                (l ++ [pre]))
      as (tr & Hloop & Hobs); [discriminate |].
    rewrite Hloop.
    destruct (accept_children (accept v) children TRAVERSE_CONTINUE s1)
      as [[r | result'] s2]; simpl in *.
    + destruct Hobs as [-> Hends].
      exists (pre :: tr). rewrite <- app_assoc. split; [reflexivity |]. split.
      * apply (ends_as_prepend _ [_] tr); [| assumption].
        constructor; [discriminate | constructor].
      * split; [discriminate |]. intros Hall. exfalso.
        apply (ends_as_not_quiet tr Hends). apply all_continue_quiet.
        unfold all_continue in *. inversion Hall; assumption.
    + destruct Hobs as (Hq & Hres & Hiff). unfold record. simpl.
      destruct (visitPost v n s2) as [rp s3]. rewrite <- !app_assoc. simpl.
      exists (pre :: tr ++ [mkEvent CbPost n rp]).
      assert (Hpre : quiet (pre :: tr))
        by (constructor; [discriminate | assumption]).
      split; [destruct rp; reflexivity |].
      assert (Hends : forall r,
                 (rp = TRAVERSE_TERMINATE <-> r = TRAVERSE_TERMINATE) ->
                 ends_as r (pre :: tr ++ [mkEvent CbPost n rp])).
      { intros r Hr. exists (pre :: tr), (mkEvent CbPost n rp).
        split; [reflexivity |]. split; assumption. }
      destruct rp; (split; [apply Hends |]).
      * split; [discriminate | tauto].
      * rewrite Hiff. unfold all_continue. split.
        -- intros [_ Hall]. constructor; [reflexivity |].
           apply Forall_app. split; [assumption |].
           constructor; [reflexivity | constructor].
        -- intros Hall. inversion Hall as [| ? ? _ Hall']; subst.
           apply Forall_app in Hall' as [Hall' _].
           split; [reflexivity | assumption].
      * split; discriminate.
      * split; [discriminate | post_not_continue].
      * tauto.
      * split; [discriminate | post_not_continue].
Qed.

End Observation.

Lemma trace_of_observed {St : Type} (v : Visitor St) (t : Tree) (s : St) :
  observed (fst (accept v t s)) (trace_of v t s).
Proof.
  destruct (accept_runs_as v t s []) as (tr & Hrun & Hobs).
  unfold trace_of. rewrite Hrun. exact Hobs.
Qed.

(** An event that terminates is the last one of a trace that [ends_as]. *)
Lemma ends_as_split r tr before e after :
  ends_as r tr -> tr = before ++ e :: after ->
  ev_result e = TRAVERSE_TERMINATE ->
  r = TRAVERSE_TERMINATE /\ after = [].
Proof.
  intros (tr0 & e' & -> & Hq & Hiff) Hsplit He.
  destruct after as [| x after _] using rev_ind.
  - apply app_inj_tail in Hsplit as [_ <-]. split; [tauto | reflexivity].
  - exfalso. rewrite app_comm_cons, app_assoc in Hsplit.
    apply app_inj_tail in Hsplit as [-> _]. unfold quiet in Hq.
    apply Forall_app in Hq as [_ Hq]. inversion Hq; subst. contradiction.
Qed.

(** C1. For every tree, visitor and start state: when some callback of the
    traversal (a [visitPre], a leaf's [visit] or a [visitPost], at any
    depth) returns [TRAVERSE_TERMINATE], the whole [accept] returns
    [TRAVERSE_TERMINATE] and that callback is the last one made: no
    sibling subtree pending at any level, and no [visitPost], runs after
    it. *)
Theorem terminate_aborts_traversal {St : Type} (v : Visitor St) (t : Tree)
    (s : St) (before after : list Event) (e : Event) :
  trace_of v t s = before ++ e :: after ->
  ev_result e = TRAVERSE_TERMINATE ->
  fst (accept v t s) = TRAVERSE_TERMINATE /\ after = [].
Proof.
  intros Hsplit He.
  destruct (trace_of_observed v t s) as [Hends _].
  exact (ends_as_split _ _ _ _ _ Hends Hsplit He).
Qed.

(** A walk of three levels in which the second leaf terminates: the two
    leaves and the subtree after it are never reached. *)
Lemma terminate_aborts_traversal_witness :
  trace_of (answer_at TRAVERSE_TERMINATE [3])
           (Inner 0 [Inner 1 [Leaf 2; Leaf 3; Leaf 4]; Inner 5 [Leaf 6]]) tt
  = [ mkEvent CbPre 0 TRAVERSE_CONTINUE; mkEvent CbPre 1 TRAVERSE_CONTINUE;
      mkEvent CbVisit 2 TRAVERSE_CONTINUE ]
    ++ mkEvent CbVisit 3 TRAVERSE_TERMINATE :: []
  /\ fst (accept (answer_at TRAVERSE_TERMINATE [3])
            (Inner 0 [Inner 1 [Leaf 2; Leaf 3; Leaf 4]; Inner 5 [Leaf 6]]) tt)
     = TRAVERSE_TERMINATE.
Proof.
  split; [reflexivity |].
  apply (terminate_aborts_traversal (answer_at TRAVERSE_TERMINATE [3])
           (Inner 0 [Inner 1 [Leaf 2; Leaf 3; Leaf 4]; Inner 5 [Leaf 6]]) tt
           [ mkEvent CbPre 0 TRAVERSE_CONTINUE;
             mkEvent CbPre 1 TRAVERSE_CONTINUE;
             mkEvent CbVisit 2 TRAVERSE_CONTINUE ]
           [] (mkEvent CbVisit 3 TRAVERSE_TERMINATE));
    reflexivity.
Defined.

(** The loop of [_accept] on a level where no child terminates: every
    child is accepted, in order, and [result] has become
    [TRAVERSE_PRUNE] exactly when some child returned it. *)
Lemma accept_children_without_terminate {St C : Type}
    (child_accept : C -> St -> VisitorResult * St) (children : list C) :
  forall (result : VisitorResult) (s : St),
    TRAVERSE_TERMINATE ∉ fst (accept_each child_accept children s) ->
    accept_children child_accept children result s
    = (Completed
         (if bool_decide
               (TRAVERSE_PRUNE ∈ fst (accept_each child_accept children s))
          then TRAVERSE_PRUNE else result),
       snd (accept_each child_accept children s)).
Proof.
  induction children as [| c children IH]; intros result s Hno; simpl in *.
  - reflexivity.
  - destruct (child_accept c s) as [r s1].
    destruct (accept_each child_accept children s1) as [rs s2] eqn:Heach.
    simpl in *. apply not_elem_of_cons in Hno as [Hr Hno].
    specialize (IH (match r with TRAVERSE_PRUNE => TRAVERSE_PRUNE
                            | _ => result end) s1).
    rewrite Heach in IH. simpl in IH. specialize (IH Hno).
    destruct r; [| | contradiction]; rewrite IH; f_equal; f_equal.
    + destruct (bool_decide_reflect (TRAVERSE_PRUNE ∈ rs)) as [Hin | Hin].
      * rewrite bool_decide_eq_true_2; [reflexivity | by right].
      * rewrite bool_decide_eq_false_2; [reflexivity |].
        intros Hin'. apply elem_of_cons in Hin' as [Hin' | Hin'];
          [discriminate | contradiction].
    + rewrite (bool_decide_eq_true_2 (TRAVERSE_PRUNE ∈ TRAVERSE_PRUNE :: rs));
        [| by left].
      by destruct (bool_decide (TRAVERSE_PRUNE ∈ rs)).
Qed.

(** The return value of a traversal, read off its trace. *)
Lemma accept_prune_iff {St : Type} (v : Visitor St) (t : Tree) (s : St) :
  quiet (trace_of v t s) ->
  (exists e, e ∈ trace_of v t s /\ ev_result e = TRAVERSE_PRUNE) ->
  fst (accept v t s) = TRAVERSE_PRUNE.
Proof.
  intros Hq (e & Hin & He).
  destruct (trace_of_observed v t s) as [Hends Hcont].
  destruct (fst (accept v t s)); [| reflexivity |].
  - exfalso. assert (Hall : all_continue (trace_of v t s)) by tauto.
    unfold all_continue in Hall. rewrite Forall_forall in Hall.
    specialize (Hall e Hin). congruence.
  - exfalso. exact (ends_as_not_quiet _ Hends Hq).
Qed.

(** C2, as the sources have it.  (1) On a level where no child's accept
    returns [TRAVERSE_TERMINATE], the loop of [_accept] accepts every child
    in order, whatever number of them return [TRAVERSE_PRUNE], and its
    [result] is [TRAVERSE_PRUNE] exactly when one of them did.  (2) Such a
    level, entered with [TRAVERSE_CONTINUE] from [visitPre] and left with
    a [visitPost] that does not terminate, returns [TRAVERSE_PRUNE] once a
    child has.  (3) A node whose [visitPre] returns [TRAVERSE_PRUNE] makes
    no further callback: none of its descendants is visited, nor its
    [visitPost].  (4) A [TRAVERSE_PRUNE] returned by any callback at any
    depth makes the whole [accept] return [TRAVERSE_PRUNE], unless some
    callback terminates. *)
Theorem prune_law :
  (forall (St C : Type) (child_accept : C -> St -> VisitorResult * St)
          (children : list C) (result : VisitorResult) (s : St),
      TRAVERSE_TERMINATE ∉ fst (accept_each child_accept children s) ->
      accept_children child_accept children result s
      = (Completed
           (if bool_decide
                 (TRAVERSE_PRUNE ∈ fst (accept_each child_accept children s))
            then TRAVERSE_PRUNE else result),
         snd (accept_each child_accept children s)))
  /\ (forall (St C : Type) (v : Visitor St)
             (child_accept : C -> St -> VisitorResult * St) (n : nat)
             (children : list C) (s : St),
        let s1 := snd (visitPre v n s) in
        let each := accept_each child_accept children s1 in
        fst (visitPre v n s) = TRAVERSE_CONTINUE ->
        TRAVERSE_TERMINATE ∉ fst each ->
        TRAVERSE_PRUNE ∈ fst each ->
        fst (visitPost v n (snd each)) <> TRAVERSE_TERMINATE ->
        fst (_accept v child_accept n children s) = TRAVERSE_PRUNE)
  /\ (forall (St : Type) (v : Visitor St) (n : nat) (children : list Tree)
             (s : St),
        fst (visitPre v n s) = TRAVERSE_PRUNE ->
        accept v (Inner n children) s = visitPre v n s
        /\ trace_of v (Inner n children) s = [mkEvent CbPre n TRAVERSE_PRUNE])
  /\ (forall (St : Type) (v : Visitor St) (t : Tree) (s : St),
        quiet (trace_of v t s) ->
        (exists e, e ∈ trace_of v t s /\ ev_result e = TRAVERSE_PRUNE) ->
        fst (accept v t s) = TRAVERSE_PRUNE).
Proof.
  split; [| split; [| split]].
  - intros St C. apply accept_children_without_terminate.
  - intros St C v child_accept n children s s1 each Hpre Hno Hprune Hpost.
    unfold _accept. subst s1 each.
    destruct (visitPre v n s) as [r s1]. simpl in *. subst r.
    rewrite (accept_children_without_terminate _ _ _ _ Hno).
    rewrite bool_decide_eq_true_2 by assumption.
    destruct (visitPost v n (snd (accept_each child_accept children s1)))
      as [rp s3]. simpl in Hpost. by destruct rp.
  - intros St v n children s Hpre. unfold trace_of. simpl. unfold _accept.
    simpl. unfold record. simpl.
    destruct (visitPre v n s) as [r s1]. simpl in Hpre. subst r.
    split; reflexivity.
  - intros St. apply accept_prune_iff.
Qed.

(** Three leaves of which the first prunes: the other two are still
    visited, in order, and the loop ends with [TRAVERSE_PRUNE]. *)
Lemma prune_law_witness :
  accept_children (accept (logged (answer_at TRAVERSE_PRUNE [1])))
    [Leaf 1; Leaf 2; Leaf 3] TRAVERSE_CONTINUE (tt, [])
  = (Completed TRAVERSE_PRUNE,
     (tt, [ mkEvent CbVisit 1 TRAVERSE_PRUNE;
            mkEvent CbVisit 2 TRAVERSE_CONTINUE;
            mkEvent CbVisit 3 TRAVERSE_CONTINUE ])).
Proof.
  refine (proj1 prune_law _ _
            (accept (logged (answer_at TRAVERSE_PRUNE [1])))
            [Leaf 1; Leaf 2; Leaf 3] TRAVERSE_CONTINUE (tt, []) _).
  vm_compute. intros H.
  repeat (apply elem_of_cons in H as [H | H]; [discriminate |]).
  by apply elem_of_nil in H.
Defined.

(** C2, as stated, fails.  Only leaf 2 prunes.  Its parent, node 1,
    returns [TRAVERSE_PRUNE] although every descendant of node 1 was
    visited; and the root, two levels above leaf 2, returns
    [TRAVERSE_PRUNE] as well: the prune went past one level. *)
Lemma prune_reaches_every_level :
  trace_of (answer_at TRAVERSE_PRUNE [2])
           (Inner 0 [Inner 1 [Leaf 2; Leaf 3]; Leaf 4]) tt
  = [ mkEvent CbPre 0 TRAVERSE_CONTINUE; mkEvent CbPre 1 TRAVERSE_CONTINUE;
      mkEvent CbVisit 2 TRAVERSE_PRUNE; mkEvent CbVisit 3 TRAVERSE_CONTINUE;
      mkEvent CbPost 1 TRAVERSE_CONTINUE; mkEvent CbVisit 4 TRAVERSE_CONTINUE;
      mkEvent CbPost 0 TRAVERSE_CONTINUE ]
  /\ fst (accept (answer_at TRAVERSE_PRUNE [2]) (Inner 1 [Leaf 2; Leaf 3]) tt)
     = TRAVERSE_PRUNE
  /\ fst (accept (answer_at TRAVERSE_PRUNE [2])
            (Inner 0 [Inner 1 [Leaf 2; Leaf 3]; Leaf 4]) tt)
     = TRAVERSE_PRUNE
  /\ ~ prune_stays_one_level.
Proof.
  repeat split; try reflexivity.
  intros Hclaim.
  specialize (Hclaim [2] 0 1 [Leaf 2; Leaf 3]).
  assert (H0 : 0 ∉ [2]) by (intros H; apply list_elem_of_singleton in H; lia).
  assert (H1 : 1 ∉ [2]) by (intros H; apply list_elem_of_singleton in H; lia).
  specialize (Hclaim H0 H1). vm_compute in Hclaim. discriminate.
Qed.

End TraversalLaws.

(** ** The frame-update pass *)
Module FrameUpdateLaws.
Import Traversal FrameUpdate.

Section Pass.
Context {CS : Type} `{!CompoundOps CS}.
Variable frameNumber : N.

(** One visit, case by case. *)
Lemma visit_unfold (c : nat) (w : World CS) :
  visit frameNumber c w =
  let st' := visited frameNumber c (compounds w) in
  let log := calls w ++ visit_calls frameNumber c in
  if draws c st'
  then channel ← getChannel c st';
       Some (TRAVERSE_CONTINUE,
             mkWorld st' (<[channel := c]> (lastDrawCompound w)) log)
  else Some (TRAVERSE_CONTINUE, mkWorld st' (lastDrawCompound w) log).
Proof.
  unfold visit, _updateDrawFinish, fireUpdatePre, updateInheritData, draws,
    visited, visit_calls, setLastDrawCompound. simpl.
  rewrite <- !app_assoc. simpl.
  destruct (testInheritTask c TASK_DRAW _); simpl;
    [destruct (isActive c _); simpl |]; try reflexivity.
  destruct (getChannel c _); reflexivity.
Qed.

Lemma visit_each_None (order : list nat) :
  visit_each frameNumber order None = None.
Proof. induction order as [| c order IH]; [reflexivity | exact IH]. Qed.

Lemma visit_each_app (order1 order2 : list nat) (ow : option (World CS)) :
  visit_each frameNumber (order1 ++ order2) ow
  = visit_each frameNumber order2 (visit_each frameNumber order1 ow).
Proof. apply foldl_app. Qed.

Lemma visit_callback_each (c : nat) (ow : option (World CS)) :
  visit_callback frameNumber c ow
  = (pass_result (visit_each frameNumber [c] ow),
     visit_each frameNumber [c] ow).
Proof.
  unfold visit_callback, visit_each. simpl. destruct ow as [w |]; simpl;
    [| reflexivity].
  rewrite visit_unfold. simpl.
  destruct (draws c _); [destruct (getChannel c _) |]; reflexivity.
Qed.

Lemma children_are_visits (children : list Tree) :
  Forall (pass_is_visits frameNumber) children ->
  forall w : World CS,
    accept_children (accept (CompoundUpdateDataVisitor frameNumber))
      children TRAVERSE_CONTINUE (Some w)
    = (match visit_each frameNumber (flat_map preorder children) (Some w) with
       | Some _ => Completed TRAVERSE_CONTINUE
       | None => Returned TRAVERSE_TERMINATE
       end,
       visit_each frameNumber (flat_map preorder children) (Some w)).
Proof.
  induction 1 as [| c children Hc _ IH]; intros w; simpl.
  - reflexivity.
  - rewrite Hc, visit_each_app.
    destruct (visit_each frameNumber (preorder c) (Some w)) as [w1 |]; simpl.
    + apply IH.
    + rewrite visit_each_None. reflexivity.
Qed.

Lemma accept_is_visits (t : Tree) : pass_is_visits frameNumber t.
Proof.
  induction t as [n | n children IH] using TraversalLaws.Tree_children_ind;
    intros ow.
  - simpl. apply visit_callback_each.
  - cbn [accept preorder].
    change (n :: flat_map preorder children)
      with ([n] ++ flat_map preorder children).
    rewrite visit_each_app. unfold _accept.
    cbn [visitPre visitPost CompoundUpdateDataVisitor].
    rewrite visit_callback_each.
    destruct (visit_each frameNumber [n] ow) as [w1 |]; cbn [pass_result].
    + rewrite (children_are_visits children IH).
      destruct (visit_each frameNumber (flat_map preorder children) (Some w1));
        reflexivity.
    + rewrite visit_each_None. reflexivity.
Qed.

(** What the visits of [order] leave behind when every drawing compound
    has a channel: the calls of each visit in turn, and on every channel
    the last of its draw participants. *)
Lemma visit_each_spec (order : list nat) :
  forall w : World CS,
    channels_present frameNumber order (compounds w) = true ->
    exists w' : World CS,
      visit_each frameNumber order (Some w) = Some w'
      /\ calls w' = calls w ++ flat_map (visit_calls frameNumber) order
      /\ forall channel : nat,
           getLastDrawCompound channel w'
           = match last (draw_participants frameNumber channel order
                           (compounds w)) with
             | Some c => Some c
             | None => getLastDrawCompound channel w
             end.
Proof.
  induction order as [| c order IH]; intros w Hpresent.
  - exists w. simpl. rewrite app_nil_r. auto.
  - simpl in Hpresent. apply andb_true_iff in Hpresent as [Hc Hrest].
    unfold visit_each. cbn [foldl mbind option_bind].
    rewrite visit_unfold. cbn zeta.
    set (st' := visited frameNumber c (compounds w)) in *.
    destruct (draws c st') eqn:Hdraws.
    + simpl in Hc. apply bool_decide_eq_true in Hc as [channel0 Hchannel].
      rewrite Hchannel. cbn [mbind option_bind fmap option_fmap option_map snd].
      destruct (IH (mkWorld st' (<[channel0 := c]> (lastDrawCompound w))
                      (calls w ++ visit_calls frameNumber c)) Hrest)
        as (w' & Hrun & Hcalls & Hlast).
      exists w'. split; [exact Hrun |]. split.
      * rewrite Hcalls. simpl. rewrite <- app_assoc. reflexivity.
      * intros channel. rewrite Hlast. cbn [draw_participants compounds].
        fold st'. rewrite Hdraws, Hchannel, last_app. cbn [andb].
        destruct (last (draw_participants frameNumber channel order st'));
          [reflexivity |].
        unfold getLastDrawCompound. cbn [lastDrawCompound].
        destruct (decide (channel0 = channel)) as [-> | Hne].
        -- rewrite lookup_insert_eq, bool_decide_eq_true_2; reflexivity.
        -- rewrite lookup_insert_ne by assumption.
           rewrite bool_decide_eq_false_2 by congruence. reflexivity.
    + cbn [mbind option_bind fmap option_fmap option_map snd].
      destruct (IH (mkWorld st' (lastDrawCompound w)
                      (calls w ++ visit_calls frameNumber c)) Hrest)
        as (w' & Hrun & Hcalls & Hlast).
      exists w'. split; [exact Hrun |]. split.
      * rewrite Hcalls. simpl. rewrite <- app_assoc. reflexivity.
      * intros channel. rewrite Hlast. cbn [draw_participants compounds].
        fold st'. rewrite Hdraws. reflexivity.
Qed.

(** C3. In the frame-update pass, a compound that has the draw task among
    its inherited tasks and is active, as computed by its own
    [updateInheritData], is recorded by the channel it references as that
    channel's last draw compound; and after a pass over a tree whose
    drawing compounds all reference a channel, every channel holds the
    last of its draw participants in visiting (pre-)order, or what it
    held before when it has none. *)
Theorem last_draw_compound_recorded :
  (forall (c : nat) (w : World CS) (channel : nat),
      let st' := visited frameNumber c (compounds w) in
      testInheritTask c TASK_DRAW st' = true ->
      isActive c st' = true ->
      getChannel c st' = Some channel ->
      exists w' : World CS,
        visit frameNumber c w = Some (TRAVERSE_CONTINUE, w')
        /\ getLastDrawCompound channel w' = Some c)
  /\ (forall (t : Tree) (w : World CS),
        channels_present frameNumber (preorder t) (compounds w) = true ->
        exists w' : World CS,
          updateData frameNumber t w = (TRAVERSE_CONTINUE, Some w')
          /\ forall channel : nat,
               getLastDrawCompound channel w'
               = match last (draw_participants frameNumber channel
                               (preorder t) (compounds w)) with
                 | Some c => Some c
                 | None => getLastDrawCompound channel w
                 end).
Proof.
  split.
  - intros c w channel st' Htask Hactive Hchannel.
    rewrite visit_unfold. cbn zeta. fold st'. unfold draws.
    rewrite Htask, Hactive, Hchannel. simpl.
    eexists. split; [reflexivity |].
    unfold getLastDrawCompound. simpl. apply lookup_insert_eq.
  - intros t w Hpresent.
    destruct (visit_each_spec (preorder t) w Hpresent)
      as (w' & Hrun & _ & Hlast).
    exists w'. split; [| exact Hlast].
    unfold updateData. rewrite accept_is_visits, Hrun. reflexivity.
Qed.

(** C4. For a compound that is inactive or has no draw task among its
    inherited tasks, [_updateDrawFinish] returns normally, also when the
    compound references no channel at all, and leaves the last draw
    compound of every channel, and the compound state, as they were. *)
Theorem draw_finish_skipped (c : nat) (w : World CS) :
  testInheritTask c TASK_DRAW (compounds w) = false
  \/ isActive c (compounds w) = false ->
  exists w' : World CS,
    _updateDrawFinish c w = Some w'
    /\ lastDrawCompound w' = lastDrawCompound w
    /\ compounds w' = compounds w.
Proof.
  intros Hskip. unfold _updateDrawFinish. simpl.
  assert (Hcond : negb (testInheritTask c TASK_DRAW (compounds w))
                  || negb (isActive c (compounds w)) = true).
  { destruct Hskip as [-> | ->]; [reflexivity | apply orb_true_r]. }
  rewrite Hcond. eexists. split; [reflexivity |]. split; reflexivity.
Qed.

(** C6. A visit makes its three calls in the order [fireUpdatePre] (with
    the visitor's frame number), [updateInheritData], [_updateDrawFinish],
    the inherited data being computed on what the listeners left, and it
    returns [TRAVERSE_CONTINUE] whenever it returns; it has no outcome
    only on a drawing compound with a null channel.  A pass over a tree
    whose drawing compounds all reference a channel therefore returns
    [TRAVERSE_CONTINUE] and has made the three calls on every compound of
    the tree once, in pre-order. *)
Theorem visit_order_and_coverage :
  (forall (c : nat) (w : World CS),
      match visit frameNumber c w with
      | Some (r, w') =>
          r = TRAVERSE_CONTINUE
          /\ calls w' = calls w ++ [ OpFireUpdatePre c frameNumber;
                                     OpUpdateInheritData c frameNumber;
                                     OpUpdateDrawFinish c ]
          /\ compounds w'
             = inheritData c frameNumber
                 (onUpdatePre c frameNumber (compounds w))
      | None =>
          draws c (visited frameNumber c (compounds w)) = true
          /\ getChannel c (visited frameNumber c (compounds w)) = None
      end)
  /\ (forall (t : Tree) (w : World CS),
        channels_present frameNumber (preorder t) (compounds w) = true ->
        exists w' : World CS,
          updateData frameNumber t w = (TRAVERSE_CONTINUE, Some w')
          /\ calls w'
             = calls w ++ flat_map (visit_calls frameNumber) (preorder t)).
Proof.
  split.
  - intros c w. rewrite visit_unfold. cbn zeta.
    destruct (draws c _) eqn:Hdraws;
      [destruct (getChannel c _) eqn:Hchannel |]; simpl; auto.
  - intros t w Hpresent.
    destruct (visit_each_spec (preorder t) w Hpresent)
      as (w' & Hrun & Hcalls & _).
    exists w'. split; [| exact Hcalls].
    unfold updateData. rewrite accept_is_visits, Hrun. reflexivity.
Qed.


End Pass.

(** Scenario 2 of the spec: the child inherits the draw task from the
    root, and channel 7 ends the pass with the child, the deepest and last
    visited of its two draw participants, as last draw compound. *)
Lemma last_draw_compound_recorded_witness :
  exists w' : World (gmap nat CompoundData),
    @updateData _ sample_ops 1%N scenario_tree scenario_world
    = (TRAVERSE_CONTINUE, Some w')
    /\ @draw_participants _ sample_ops 1%N 7 (preorder scenario_tree)
         scenario_compounds = [0; 1]
    /\ getLastDrawCompound 7 w' = Some 1.
Proof.
  destruct (proj2 (@last_draw_compound_recorded _ sample_ops 1%N)
              scenario_tree scenario_world eq_refl) as (w' & Hrun & Hlast).
  exists w'. split; [exact Hrun |]. split; [reflexivity |].
  rewrite Hlast. reflexivity.
Defined.

(** Compound 5 is not active and references no channel: the draw-finish
    step returns and changes nothing. *)
Lemma draw_finish_skipped_witness :
  @isActive _ sample_ops 5 scenario_compounds = false
  /\ @getChannel _ sample_ops 5 scenario_compounds = None
  /\ exists w' : World (gmap nat CompoundData),
       @_updateDrawFinish _ sample_ops 5 scenario_world = Some w'
       /\ lastDrawCompound w' = lastDrawCompound scenario_world
       /\ compounds w' = compounds scenario_world.
Proof.
  split; [reflexivity |]. split; [reflexivity |].
  apply (@draw_finish_skipped _ sample_ops 5 scenario_world).
  right. reflexivity.
Defined.

(** The pass over scenario 2: root first, then the child, three calls
    each. *)
Lemma visit_order_and_coverage_witness :
  exists w' : World (gmap nat CompoundData),
    @updateData _ sample_ops 1%N scenario_tree scenario_world
    = (TRAVERSE_CONTINUE, Some w')
    /\ calls w'
       = [ OpFireUpdatePre 0 1%N; OpUpdateInheritData 0 1%N;
           OpUpdateDrawFinish 0;
           OpFireUpdatePre 1 1%N; OpUpdateInheritData 1 1%N;
           OpUpdateDrawFinish 1 ].
Proof.
  destruct (proj2 (@visit_order_and_coverage _ sample_ops 1%N)
              scenario_tree scenario_world eq_refl) as (w' & Hrun & Hcalls).
  exists w'. split; [exact Hrun |]. rewrite Hcalls. reflexivity.
Defined.


End FrameUpdateLaws.

(** ** The replication payload and the life cycle of a view *)
Module ViewObjectLaws.
Import ViewObject.

Section Payload.
Context {F : Type} `{!ViewBase F}.

(** The test of the source, [dirtyBits & DIRTY_VIEWPORT], reads the
    viewport bit of the mask. *)
Lemma viewport_dirty_testbit (dirtyBits : N) :
  viewport_dirty dirtyBits = N.testbit dirtyBits viewport_bit.
Proof.
  unfold viewport_dirty, DIRTY_VIEWPORT. rewrite N.shiftl_1_l.
  destruct (N.testbit dirtyBits viewport_bit) eqn:Hbit.
  - apply negb_true_iff, N.eqb_neq. intros Hzero.
    assert (Hland : N.testbit (N.land dirtyBits (2 ^ viewport_bit))
                      viewport_bit = true).
    { rewrite N.land_spec, Hbit, N.pow2_bits_true. reflexivity. }
    rewrite Hzero, N.bits_0 in Hland. discriminate.
  - apply negb_false_iff, N.eqb_eq, N.bits_inj. intros m.
    rewrite N.land_spec, N.bits_0, N.pow2_bits_eqb.
    destruct (N.eqb_spec viewport_bit m) as [<- | _].
    + rewrite Hbit. reflexivity.
    + apply andb_false_r.
Qed.

(** C5. [View::serialize] writes, after the frustum's part, the four
    words of the viewport when the viewport bit of the mask is set and
    nothing when it is not; and, the frustum reading back what it wrote,
    [View::deserialize] with the same mask takes exactly the serialized
    payload off the stream, the viewport it leaves being the serialized
    one when the bit is set and the receiver's own when it is not. *)
Theorem viewport_sent_iff_dirty (v v0 : View F) (os rest : DataStream)
    (dirtyBits : N) :
  frustum_reads_back F ->
  serialize v os dirtyBits
  = os ++ Frustum_serialize (frustum v) dirtyBits
       ++ (if N.testbit dirtyBits viewport_bit
           then [ vp_x (_viewport v); vp_y (_viewport v);
                  vp_w (_viewport v); vp_h (_viewport v) ]
           else [])
  /\ exists v' : View F,
       deserialize v0 (serialize v [] dirtyBits ++ rest) dirtyBits
       = Some (v', rest)
       /\ getViewport v'
          = (if N.testbit dirtyBits viewport_bit
             then getViewport v else getViewport v0)
       /\ _layout v' = _layout v0.
Proof.
  intros Hfrustum. unfold serialize, deserialize, getViewport.
  rewrite viewport_dirty_testbit. split.
  - destruct (N.testbit dirtyBits viewport_bit); unfold put_viewport.
    + rewrite <- app_assoc. reflexivity.
    + rewrite app_nil_r. reflexivity.
  - destruct (N.testbit dirtyBits viewport_bit); unfold put_viewport; simpl.
    + destruct (Hfrustum (frustum v) (frustum v0) dirtyBits
                  ([ vp_x (_viewport v); vp_y (_viewport v);
                     vp_w (_viewport v); vp_h (_viewport v) ] ++ rest))
        as (f' & Hread).
      rewrite <- app_assoc, Hread. simpl.
      eexists. split; [reflexivity |]. simpl.
      split; [destruct (_viewport v) |]; reflexivity.
    + destruct (Hfrustum (frustum v) (frustum v0) dirtyBits rest)
        as (f' & Hread).
      rewrite Hread. simpl. eexists. split; [reflexivity |].
      split; reflexivity.
Qed.

(** C9. The destructor of a view goes through exactly when the back
    pointer to the layout is null: with [_layout] still set the assertion
    stops it, and a view that was destroyed had a null [_layout] at that
    moment.  A view as constructed can be destroyed. *)
Theorem view_destruction_checks_layout (v : View F) (f : F) (vp : Viewport) :
  match View_dtor v with
  | Some v' => _layout v = None /\ _layout v' = None
  | None => _layout v <> None
  end
  /\ View_dtor (View_ctor f vp) = Some (View_ctor f vp).
Proof.
  split; [| reflexivity].
  unfold View_dtor, EQASSERT. destruct (_layout v) as [layout |]; simpl.
  - discriminate.
  - split; reflexivity.
Qed.

End Payload.

Lemma sample_base_reads_back : @frustum_reads_back N sample_base.
Proof.
  intros f f0 dirtyBits rest. simpl.
  destruct (N.testbit dirtyBits 0); simpl; eauto.
Qed.

(** Scenario 3 of the spec and its counterpart: mask 1 carries the
    frustum only, mask 9 the frustum and the viewport. *)
Lemma viewport_sent_iff_dirty_witness :
  @serialize N sample_base (mkView 5%N (mkViewport 1 2 3 4) None) [] 1%N
  = [5%N]
  /\ @serialize N sample_base (mkView 5%N (mkViewport 1 2 3 4) None) [] 9%N
     = [5; 1; 2; 3; 4]%N
  /\ exists v' : View N,
       @deserialize N sample_base (mkView 0%N (mkViewport 0 0 0 0) None)
         (@serialize N sample_base (mkView 5%N (mkViewport 1 2 3 4) None)
            [] 9%N ++ [77%N]) 9%N
       = Some (v', [77%N])
       /\ getViewport v' = mkViewport 1 2 3 4.
Proof.
  split; [reflexivity |]. split; [reflexivity |].
  destruct (@viewport_sent_iff_dirty N sample_base
              (mkView 5%N (mkViewport 1 2 3 4) None)
              (mkView 0%N (mkViewport 0 0 0 0) None) [] [77%N] 9%N
              sample_base_reads_back) as (_ & v' & Hread & Hvp & _).
  exists v'. split; [exact Hread | exact Hvp].
Defined.

End ViewObjectLaws.

(** ** The atomic primitive *)
Module AtomicsLaws.
Import Atomics.

(** C10. On a cell that exists, and with the guard free, [compareAndSwap]
    returns [true] exactly when the cell holds [old]; it then stores [nw]
    in that cell and leaves the other cells alone; when the cell holds
    anything else it returns [false] and memory is unchanged.  Either way
    the guard is free again on return. *)
Theorem compareAndSwap_spec {V : Type} `{!EqDecision V} (st : Emulation V)
    (addr : N) (cell old nw : V) :
  guard st = false ->
  memory st !! addr = Some cell ->
  exists (swapped : bool) (st' : Emulation V),
    compareAndSwap addr old nw st = Some (swapped, st')
    /\ guard st' = false
    /\ (swapped = true <-> cell = old)
    /\ (swapped = true ->
        memory st' !! addr = Some nw
        /\ forall other : N,
             other <> addr -> memory st' !! other = memory st !! other)
    /\ (swapped = false -> memory st' = memory st).
Proof.
  intros Hfree Hcell. unfold compareAndSwap, lock. rewrite Hfree. simpl.
  rewrite Hcell. simpl.
  destruct (decide (cell = old)) as [Heq | Hne].
  - eexists true, _. split; [reflexivity |]. split; [reflexivity |].
    split; [tauto |]. split; [| discriminate]. intros _. simpl. split.
    + apply lookup_insert_eq.
    + intros other Hother. apply lookup_insert_ne. congruence.
  - eexists false, _. split; [reflexivity |]. split; [reflexivity |].
    split; [split; [discriminate | contradiction] |].
    split; [discriminate | reflexivity].
Qed.

(** A swap that goes through and one that does not. *)
Lemma compareAndSwap_spec_witness :
  (exists st' : Emulation nat,
      compareAndSwap 8%N 1 2 (mkEmulation false (<[8%N := 1]> ∅))
      = Some (true, st')
      /\ guard st' = false
      /\ memory st' !! 8%N = Some 2)
  /\ compareAndSwap 8%N 3 2 (mkEmulation false (<[8%N := 1]> ∅ : gmap N nat))
     = Some (false, mkEmulation false (<[8%N := 1]> ∅)).
Proof.
  split.
  - assert (Hcell : memory (mkEmulation false (<[8%N := 1]> ∅ : gmap N nat))
                    !! 8%N = Some 1)
      by apply lookup_insert_eq.
    destruct (compareAndSwap_spec
                (mkEmulation false (<[8%N := 1]> ∅ : gmap N nat))
                8%N 1 1 2 eq_refl Hcell)
      as (swapped & st' & Hrun & Hguard & Hiff & Htrue & _).
    assert (Hswapped : swapped = true) by (apply Hiff; reflexivity).
    subst swapped. exists st'. split; [exact Hrun |].
    split; [exact Hguard | apply Htrue; reflexivity].
  - reflexivity.
Defined.

End AtomicsLaws.

(** ** The config commands of the server *)
Module ServerCommandsLaws.
Import ServerCommands.

(** The replies a handler is to send for a request id: one, to the node
    the command came from, unless the id is the undefined sentinel. *)
Lemma replies_unfold (undefined requestID : N) (node : nat)
    (reply : ReplyPacket) :
  (if bool_decide (requestID ≠ undefined) then [(node, reply)] else [])
  = if bool_decide (requestID = undefined) then [] else [(node, reply)].
Proof.
  destruct (decide (requestID = undefined)) as [Heq | Hne].
  - rewrite bool_decide_eq_false_2, bool_decide_eq_true_2; tauto.
  - rewrite bool_decide_eq_true_2, bool_decide_eq_false_2; tauto.
Qed.

(** C7.  Every create-config command, and every destroy-config command
    whose config the handler finds, as its assertion [EQASSERT( config )]
    says it does, is answered with one reply, sent to the node the command
    came from and carrying the request id of the command, exactly when
    that id is not the undefined sentinel; a command without request id
    gets no reply.  Both handlers return [true].  For a destroy-config
    command there is no other outcome: either the assertion is violated,
    the lookup having found nothing, or the handler returns as said. *)
Theorem reply_iff_request_id {E : Type} `{!Collaborators E} :
  (forall (command : Command ServerCreateConfigPacket) (server : Server E),
      let requestID := create_requestID (packet command) in
      fst (fst (_cmdCreateConfig command server)) = true
      /\ snd (_cmdCreateConfig command server)
         = if bool_decide (requestID = EQ_UNDEFINED_UINT32) then []
           else [(fromNode command,
                  mkReply CMD_CONFIG_CREATE_REPLY requestID)])
  /\ (forall (command : Command ServerDestroyConfigPacket) (server : Server E),
        let requestID := destroy_requestID (packet command) in
        is_Some (find_config (configID (packet command)) (_configs server)) ->
        exists server' : Server E,
          _cmdDestroyConfig command server
          = Some (true, server',
                  if bool_decide (requestID = EQ_UNDEFINED_UINT32) then []
                  else [(fromNode command,
                         mkReply CMD_SERVER_DESTROY_CONFIG_REPLY requestID)]))
  /\ (forall (command : Command ServerDestroyConfigPacket) (server : Server E),
        let requestID := destroy_requestID (packet command) in
        match _cmdDestroyConfig command server with
        | Some (handled, _, replies) =>
            handled = true
            /\ replies
               = (if bool_decide (requestID = EQ_UNDEFINED_UINT32) then []
                  else [(fromNode command,
                         mkReply CMD_SERVER_DESTROY_CONFIG_REPLY requestID)])
        | None =>
            find_config (configID (packet command)) (_configs server) = None
        end).
Proof.
  assert (Hdestroy :
    forall (command : Command ServerDestroyConfigPacket) (server : Server E)
           (config : Config),
      find_config (configID (packet command)) (_configs server) = Some config ->
      exists server' : Server E,
        _cmdDestroyConfig command server
        = Some (true, server',
                if bool_decide (destroy_requestID (packet command)
                                = EQ_UNDEFINED_UINT32) then []
                else [(fromNode command,
                       mkReply CMD_SERVER_DESTROY_CONFIG_REPLY
                         (destroy_requestID (packet command)))])).
  { intros command server config Hfound.
    unfold _cmdDestroyConfig. rewrite Hfound.
    rewrite (bool_decide_eq_true_2 (is_Some (Some config))); [| by eexists].
    simpl. rewrite <- replies_unfold.
    destruct (bool_decide (_ ≠ EQ_UNDEFINED_UINT32)); eauto. }
  split; [| split].
  - intros command server requestID. unfold _cmdCreateConfig.
    destruct (createConfig server) as [config server1].
    destruct (mapObject config _ server1) as [config' server2].
    fold requestID. rewrite <- replies_unfold.
    destruct (bool_decide (requestID ≠ EQ_UNDEFINED_UINT32)); split;
      reflexivity.
  - intros command server requestID [config Hfound].
    exact (Hdestroy command server config Hfound).
  - intros command server requestID.
    destruct (find_config (configID (packet command)) (_configs server))
      as [config |] eqn:Hfound.
    + destruct (Hdestroy command server config Hfound) as [server' ->].
      split; reflexivity.
    + unfold _cmdDestroyConfig. rewrite Hfound.
      rewrite (bool_decide_eq_false_2 (is_Some None));
        [reflexivity | intros [? ?]; discriminate].
Qed.

(** A config is created on request 21 from node 4; it is destroyed on a
    command without request id, or on request 22 from node 5: one reply,
    none, one reply. *)
Lemma reply_iff_request_id_witness :
  snd (@_cmdCreateConfig N sample_env
         (mkCommand (mkCreatePacket (0, 1)%N 21%N) 4) (mkServer [] 0%N))
  = [(4, mkReply CMD_CONFIG_CREATE_REPLY 21%N)]
  /\ (exists server' : Server N,
        @_cmdDestroyConfig N sample_env
          (mkCommand (mkDestroyPacket 0%N 4294967295%N) 4)
          (mkServer [mkConfig 0%N 0] 1%N)
        = Some (true, server', []))
  /\ (exists server' : Server N,
        @_cmdDestroyConfig N sample_env
          (mkCommand (mkDestroyPacket 0%N 22%N) 5)
          (mkServer [mkConfig 0%N 0] 1%N)
        = Some (true, server',
                [(5, mkReply CMD_SERVER_DESTROY_CONFIG_REPLY 22%N)])).
Proof.
  split; [| split].
  - exact (proj2 (proj1 (@reply_iff_request_id N sample_env)
                    (mkCommand (mkCreatePacket (0, 1)%N 21%N) 4)
                    (mkServer [] 0%N))).
  - apply (proj1 (proj2 (@reply_iff_request_id N sample_env))
             (mkCommand (mkDestroyPacket 0%N 4294967295%N) 4)
             (mkServer [mkConfig 0%N 0] 1%N)).
    eexists. reflexivity.
  - apply (proj1 (proj2 (@reply_iff_request_id N sample_env))
             (mkCommand (mkDestroyPacket 0%N 22%N) 5)
             (mkServer [mkConfig 0%N 0] 1%N)).
    eexists. reflexivity.
Defined.

End ServerCommandsLaws.

(** ** The init phase of a channel *)
Module ChannelInitLaws.
Import ChannelInit.

(** The states of a channel between [startConfigInit] and the next start
    of an exit. *)
Lemma deliver_init_phase (c : Channel) (cmd : Incoming) :
  init_phase c -> init_phase (deliver c cmd).
Proof.
  unfold init_phase, deliver. destruct c as [state requests]. simpl.
  destruct cmd as [[|] | [|] | |], state; simpl; intuition congruence.
Qed.

Lemma deliver_all_init_phase (early : list Incoming) (c : Channel) :
  init_phase c -> init_phase (foldl deliver c early).
Proof.
  revert c. induction early as [| cmd early IH]; intros c Hc; simpl.
  - exact Hc.
  - apply IH, deliver_init_phase, Hc.
Qed.

Lemma waitNE_init_phase (incoming : list Incoming) :
  forall (c c' : Channel) (rest : list Incoming),
    init_phase c ->
    waitNE STATE_INITIALIZING incoming c = Some (c', rest) ->
    _state c' = STATE_RUNNING \/ _state c' = STATE_INIT_FAILED.
Proof.
  induction incoming as [| cmd incoming IH]; intros c c' rest Hc Hwait;
    simpl in Hwait.
  - destruct (decide (_state c = STATE_INITIALIZING)) as [Heq | Hne];
      [discriminate |].
    injection Hwait as <- _. unfold init_phase in Hc. tauto.
  - destruct (decide (_state c = STATE_INITIALIZING)) as [Heq | Hne].
    + apply (IH _ _ _ (deliver_init_phase c cmd Hc) Hwait).
    + injection Hwait as <- _. unfold init_phase in Hc. tauto.
Qed.

Lemma waitNE_settled (incoming : list Incoming) (c : Channel) :
  _state c <> STATE_INITIALIZING ->
  waitNE STATE_INITIALIZING incoming c = Some (c, incoming).
Proof.
  intros Hne. destruct incoming; simpl;
    destruct (decide (_state c = STATE_INITIALIZING)); tauto.
Qed.

Lemma waitNE_returns (incoming : list Incoming) :
  forall (c : Channel) (result : bool),
    init_phase c ->
    ConfigInitReply result ∈ incoming ->
    is_Some (waitNE STATE_INITIALIZING incoming c).
Proof.
  induction incoming as [| cmd incoming IH]; intros c result Hc Hin.
  - by apply elem_of_nil in Hin.
  - simpl. destruct (decide (_state c = STATE_INITIALIZING)) as [Heq | Hne];
      [| eauto].
    apply elem_of_cons in Hin as [<- | Hin].
    + rewrite waitNE_settled; [eauto |].
      unfold deliver. rewrite Heq. destruct result; discriminate.
    + apply (IH _ result (deliver_init_phase c cmd Hc) Hin).
Qed.

Lemma waitNE_blocks (incoming : list Incoming) :
  forall c : Channel,
    (forall result : bool, ConfigInitReply result ∉ incoming) ->
    _state c = STATE_INITIALIZING ->
    waitNE STATE_INITIALIZING incoming c = None.
Proof.
  induction incoming as [| cmd incoming IH]; intros c Hnone Hstate; simpl;
    destruct (decide (_state c = STATE_INITIALIZING)) as [_ | Hne];
    try contradiction.
  - reflexivity.
  - apply IH.
    + intros result Hin. apply (Hnone result). by right.
    + unfold deliver. rewrite Hstate.
      destruct cmd as [result | [|] | |]; try assumption.
      exfalso. apply (Hnone result). by left.
Qed.

(** C8. [startConfigInit] leaves the channel in [STATE_INITIALIZING],
    whatever state it was in, and consumes no incoming command.  A
    [syncConfigInit] after it, whatever replies the command thread handled
    in between, returns [true] exactly when it leaves the channel in
    [STATE_RUNNING] and [false] exactly when it leaves it in
    [STATE_INIT_FAILED]; called again at once it returns the same, without
    consuming anything; it does return once the init reply is among the
    incoming commands, and it waits for ever when that reply never
    comes. *)
Theorem config_init_state_machine (initID : N) (c : Channel)
    (early incoming : list Incoming) :
  let started := startConfigInit initID c in
  let waiting := foldl deliver started early in
  getState started = STATE_INITIALIZING
  /\ (forall (success : bool) (c' : Channel) (rest : list Incoming),
        syncConfigInit incoming waiting = Some (success, c', rest) ->
        (success = true <-> getState c' = STATE_RUNNING)
        /\ (success = false <-> getState c' = STATE_INIT_FAILED)
        /\ syncConfigInit rest c' = Some (success, c', rest))
  /\ (forall result : bool,
        ConfigInitReply result ∈ incoming ->
        is_Some (syncConfigInit incoming waiting))
  /\ ((forall result : bool, ConfigInitReply result ∉ incoming) ->
      syncConfigInit incoming started = None).
Proof.
  intros started waiting.
  assert (Hphase : init_phase waiting).
  { apply deliver_all_init_phase. left. reflexivity. }
  split; [reflexivity |]. split; [| split].
  - intros success c' rest Hsync. unfold syncConfigInit in *.
    destruct (waitNE STATE_INITIALIZING incoming waiting)
      as [[c1 rest1] |] eqn:Hwait; [| discriminate].
    simpl in Hsync. injection Hsync as <- <- <-.
    pose proof (waitNE_init_phase _ _ _ _ Hphase Hwait) as Hend.
    unfold getState. split; [| split].
    + rewrite bool_decide_eq_true. reflexivity.
    + rewrite bool_decide_eq_false. destruct Hend as [-> | ->]; split;
        congruence.
    + rewrite waitNE_settled; [reflexivity |].
      destruct Hend as [-> | ->]; discriminate.
  - intros result Hin. unfold syncConfigInit.
    destruct (waitNE_returns incoming waiting result Hphase Hin)
      as [[c1 rest1] ->].
    simpl. eauto.
  - intros Hnone. unfold syncConfigInit.
    rewrite (waitNE_blocks incoming started Hnone); reflexivity.
Qed.

(** A channel is started, its init fails, and two syncs in a row both
    say so. *)
Lemma config_init_state_machine_witness :
  syncConfigInit [SetNearFar; ConfigInitReply false; FrameFinishReply]
    (startConfigInit 3%N (mkChannel STATE_STOPPED []))
  = Some (false, mkChannel STATE_INIT_FAILED [ConfigInit 3%N],
          [FrameFinishReply])
  /\ syncConfigInit [FrameFinishReply]
       (mkChannel STATE_INIT_FAILED [ConfigInit 3%N])
     = Some (false, mkChannel STATE_INIT_FAILED [ConfigInit 3%N],
             [FrameFinishReply]).
Proof.
  split; [reflexivity |].
  apply (proj1 (proj2 (config_init_state_machine 3%N
                         (mkChannel STATE_STOPPED []) []
                         [SetNearFar; ConfigInitReply false; FrameFinishReply]))
           false (mkChannel STATE_INIT_FAILED [ConfigInit 3%N])
           [FrameFinishReply] eq_refl).
Defined.

End ChannelInitLaws.

(** ** More on the traversal *)
Module TraversalTraceLaws.
Import Traversal TraversalTrace.

Section Trace.
Context {St : Type} (v : Visitor St).

Lemma children_log (children : list Tree) :
  Forall (logs_trace v) children -> logs_children_trace v children.
Proof.
  induction 1 as [| c children Hc _ IH]; intros result s l.
  - unfold children_trace. simpl. rewrite app_nil_r. reflexivity.
  - unfold children_trace. simpl. rewrite (Hc s l), (Hc s []). simpl.
    destruct (accept v c s) as [r s1]. simpl.
    destruct r; rewrite ?(IH _ s1 (l ++ _)), ?(IH _ s1 (trace_of v c s));
      simpl; rewrite ?app_assoc; reflexivity.
Qed.

Lemma inner_log (n : nat) (children : list Tree) :
  logs_children_trace v children -> logs_trace v (Inner n children).
Proof.
  intros Hloop s l. unfold trace_of. simpl. unfold _accept. simpl.
  unfold record. simpl. destruct (visitPre v n s) as [r s1].
  destruct r; try reflexivity.
  rewrite (Hloop _ s1 (l ++ _)), (Hloop _ s1 [_]).
  destruct (accept_children (accept v) children TRAVERSE_CONTINUE s1)
    as [[r | result'] s2]; simpl.
  - rewrite <- app_assoc. reflexivity.
  - destruct (visitPost v n s2) as [rp s3].
    destruct rp; simpl; rewrite <- !app_assoc; reflexivity.
Qed.

Lemma accept_log (t : Tree) : logs_trace v t.
Proof.
  induction t as [n | n children IH] using TraversalLaws.Tree_children_ind.
  - intros s l. unfold trace_of. simpl. unfold record. simpl.
    destruct (visit v n s) as [r s']. reflexivity.
  - apply inner_log, children_log, IH.
Qed.

Lemma accept_children_log (children : list Tree) :
  logs_children_trace v children.
Proof.
  apply children_log. apply Forall_forall. intros c _. apply accept_log.
Qed.

(** The trace, level by level. *)
Lemma trace_of_leaf (n : nat) (s : St) :
  trace_of v (Leaf n) s = [mkEvent CbVisit n (fst (visit v n s))].
Proof.
  unfold trace_of. simpl. unfold record. simpl.
  destruct (visit v n s). reflexivity.
Qed.

Lemma trace_of_inner (n : nat) (children : list Tree) (s : St) :
  trace_of v (Inner n children) s
  = mkEvent CbPre n (fst (visitPre v n s))
    :: match fst (visitPre v n s) with
       | TRAVERSE_CONTINUE =>
           children_trace v children TRAVERSE_CONTINUE (snd (visitPre v n s))
           ++ match accept_children (accept v) children TRAVERSE_CONTINUE
                      (snd (visitPre v n s)) with
              | (Completed _, s2) =>
                  [mkEvent CbPost n (fst (visitPost v n s2))]
              | (Returned _, _) => []
              end
       | _ => []
       end.
Proof.
  unfold trace_of. simpl. unfold _accept. simpl. unfold record. simpl.
  destruct (visitPre v n s) as [r s1]. simpl.
  destruct r; try reflexivity.
  rewrite (accept_children_log children _ s1 [_]).
  destruct (accept_children (accept v) children TRAVERSE_CONTINUE s1)
    as [[r | result'] s2]; simpl.
  - rewrite app_nil_r. reflexivity.
  - destruct (visitPost v n s2) as [rp s3]. destruct rp; reflexivity.
Qed.

Lemma children_trace_nil (result : VisitorResult) (s : St) :
  children_trace v [] result s = [].
Proof. reflexivity. Qed.

Lemma children_trace_cons (c : Tree) (children : list Tree)
    (result : VisitorResult) (s : St) :
  children_trace v (c :: children) result s
  = trace_of v c s
    ++ match fst (accept v c s) with
       | TRAVERSE_TERMINATE => []
       | TRAVERSE_PRUNE =>
           children_trace v children TRAVERSE_PRUNE (snd (accept v c s))
       | TRAVERSE_CONTINUE =>
           children_trace v children result (snd (accept v c s))
       end.
Proof.
  unfold children_trace at 1. simpl. rewrite (accept_log c s []). simpl.
  destruct (accept v c s) as [r s1]. simpl.
  destruct r; rewrite ?(accept_children_log children _ s1 (trace_of v c s));
    simpl; rewrite ?app_nil_r; reflexivity.
Qed.

End Trace.

Lemma reached_app (tr1 tr2 : list Event) :
  reached (tr1 ++ tr2) = reached tr1 ++ reached tr2.
Proof.
  induction tr1 as [| e tr1 IH]; simpl; [reflexivity |].
  destruct (ev_callback e); simpl; rewrite IH; reflexivity.
Qed.

Lemma entered_app (tr1 tr2 : list Event) :
  entered (tr1 ++ tr2) = entered tr1 + entered tr2.
Proof.
  induction tr1 as [| e tr1 IH]; simpl; [reflexivity |].
  destruct (ev_callback e), (ev_result e); simpl; rewrite IH; reflexivity.
Qed.

Lemma left_app (tr1 tr2 : list Event) :
  left (tr1 ++ tr2) = left tr1 + left tr2.
Proof.
  induction tr1 as [| e tr1 IH]; simpl; [reflexivity |].
  destruct (ev_callback e); simpl; rewrite IH; reflexivity.
Qed.

(** Once a child has pruned, the loop cannot end with
    [TRAVERSE_CONTINUE]. *)
Lemma accept_children_continue {St C : Type}
    (child_accept : C -> St -> VisitorResult * St) (children : list C) :
  forall (result : VisitorResult) (s s' : St),
    accept_children child_accept children result s
    = (Completed TRAVERSE_CONTINUE, s') ->
    result = TRAVERSE_CONTINUE.
Proof.
  induction children as [| c children IH]; intros result s s' Hloop;
    simpl in Hloop.
  - congruence.
  - destruct (child_accept c s) as [[| |] s1].
    + exact (IH _ _ _ Hloop).
    + discriminate (IH _ _ _ Hloop).
    + discriminate.
Qed.

(** The loop returns early only with [TRAVERSE_TERMINATE]. *)
Lemma accept_children_returned {St C : Type}
    (child_accept : C -> St -> VisitorResult * St) (children : list C) :
  forall (result r : VisitorResult) (s s' : St),
    accept_children child_accept children result s = (Returned r, s') ->
    r = TRAVERSE_TERMINATE.
Proof.
  induction children as [| c children IH]; intros result r s s' Hloop;
    simpl in Hloop.
  - discriminate.
  - destruct (child_accept c s) as [[| |] s1]; eauto. congruence.
Qed.

Section Walk.
Context {St : Type} (v : Visitor St).

(** X1. The value [accept] returns can be read off the callbacks it
    made: it is [TRAVERSE_CONTINUE] exactly when every callback returned
    [TRAVERSE_CONTINUE]; and every traversal makes at least one callback,
    the last of which returned [TRAVERSE_TERMINATE] exactly when [accept]
    does. *)
Theorem accept_result_read_off_trace (t : Tree) (s : St) :
  (fst (accept v t s) = TRAVERSE_CONTINUE <-> all_continue (trace_of v t s))
  /\ exists e : Event,
       last (trace_of v t s) = Some e
       /\ (fst (accept v t s) = TRAVERSE_TERMINATE
           <-> ev_result e = TRAVERSE_TERMINATE).
Proof.
  destruct (TraversalLaws.trace_of_observed v t s)
    as [(tr0 & e & Htr & _ & Hiff) Hcont].
  split; [exact Hcont |]. exists e. rewrite Htr, last_snoc.
  split; [reflexivity | symmetry; exact Hiff].
Qed.

(** The children of a level are reached in pre-order, whatever is cut
    out of the walk. *)
Lemma children_reached_sublist (children : list Tree) :
  Forall (fun c => forall s, reached (trace_of v c s) `sublist_of` preorder c)
         children ->
  forall (result : VisitorResult) (s : St),
    reached (children_trace v children result s)
    `sublist_of` flat_map preorder children.
Proof.
  induction 1 as [| c children Hc _ IH]; intros result s.
  - constructor.
  - rewrite children_trace_cons, reached_app. simpl.
    apply sublist_app; [apply Hc |].
    destruct (fst (accept v c s)); [apply IH | apply IH | apply sublist_nil_l].
Qed.

(** X3. Whatever the visitor answers, the nodes handed to [visitPre] or
    [visit], in the order of the calls, are a subsequence of the
    pre-order listing of the tree: pruning and terminating only leave
    nodes out; no node is visited out of order, or more often than it
    occurs in the tree. *)
Theorem reached_sublist_preorder (t : Tree) (s : St) :
  reached (trace_of v t s) `sublist_of` preorder t.
Proof.
  revert s.
  induction t as [n | n children IH] using TraversalLaws.Tree_children_ind;
    intros s.
  - rewrite trace_of_leaf. simpl. reflexivity.
  - rewrite trace_of_inner. simpl. apply sublist_skip.
    destruct (fst (visitPre v n s)); try apply sublist_nil_l.
    rewrite reached_app.
    rewrite <- (app_nil_r (flat_map preorder children)).
    apply sublist_app; [apply children_reached_sublist, IH |].
    destruct (accept_children (accept v) children TRAVERSE_CONTINUE _)
      as [[r | result'] s2]; simpl; constructor.
Qed.

Lemma children_reached_all (children : list Tree) :
  Forall (fun c => forall s,
            fst (accept v c s) = TRAVERSE_CONTINUE ->
            reached (trace_of v c s) = preorder c) children ->
  forall (s s' : St),
    accept_children (accept v) children TRAVERSE_CONTINUE s
    = (Completed TRAVERSE_CONTINUE, s') ->
    reached (children_trace v children TRAVERSE_CONTINUE s)
    = flat_map preorder children.
Proof.
  induction 1 as [| c children Hc _ IH]; intros s s' Hloop.
  - reflexivity.
  - rewrite children_trace_cons, reached_app. simpl in *.
    specialize (Hc s). destruct (accept v c s) as [[| |] s1]; simpl in *.
    + rewrite Hc, (IH _ _ Hloop); reflexivity.
    + discriminate (accept_children_continue _ _ _ _ _ Hloop).
    + discriminate.
Qed.

(** X2. A traversal that returns [TRAVERSE_CONTINUE] has handed every
    node of the tree to [visitPre] or [visit], once, in pre-order. *)
Theorem continue_reaches_every_node (t : Tree) (s : St) :
  fst (accept v t s) = TRAVERSE_CONTINUE ->
  reached (trace_of v t s) = preorder t.
Proof.
  revert s.
  induction t as [n | n children IH] using TraversalLaws.Tree_children_ind;
    intros s Hres.
  - rewrite trace_of_leaf. reflexivity.
  - rewrite trace_of_inner. simpl in *. unfold _accept in Hres.
    destruct (visitPre v n s) as [[| |] s1]; simpl in *; try discriminate.
    destruct (accept_children (accept v) children TRAVERSE_CONTINUE s1)
      as [[r | result'] s2] eqn:Hloop; simpl in *.
    + rewrite (accept_children_returned _ _ _ _ _ _ Hloop) in Hres.
      discriminate.
    + assert (result' = TRAVERSE_CONTINUE) as ->.
      { destruct (visitPost v n s2) as [[| |] s3]; simpl in Hres;
          congruence. }
      rewrite reached_app, (children_reached_all children IH _ _ Hloop).
      simpl. rewrite app_nil_r. reflexivity.
Qed.

Lemma children_left_entered (children : list Tree) :
  Forall (fun c => forall s,
            left (trace_of v c s) <= entered (trace_of v c s)
            /\ (fst (accept v c s) <> TRAVERSE_TERMINATE ->
                left (trace_of v c s) = entered (trace_of v c s)))
         children ->
  forall (result : VisitorResult) (s : St),
    left (children_trace v children result s)
    <= entered (children_trace v children result s)
    /\ (forall result' s',
          accept_children (accept v) children result s
          = (Completed result', s') ->
          left (children_trace v children result s)
          = entered (children_trace v children result s)).
Proof.
  induction 1 as [| c children Hc _ IH]; intros result s.
  - split; [reflexivity | intros; reflexivity].
  - rewrite children_trace_cons, left_app, entered_app. simpl.
    destruct (Hc s) as [Hle Heq].
    destruct (accept v c s) as [[| |] s1]; simpl in *.
    + destruct (IH result s1) as [Hle' Heq']. split; [lia |].
      intros result' s' Hloop. rewrite (Heq' _ _ Hloop), Heq; [lia |].
      discriminate.
    + destruct (IH TRAVERSE_PRUNE s1) as [Hle' Heq']. split; [lia |].
      intros result' s' Hloop. rewrite (Heq' _ _ Hloop), Heq; [lia |].
      discriminate.
    + split; [lia | discriminate].
Qed.

(** X4. In every traversal [visitPost] is called at most once for each
    [visitPre] that returned [TRAVERSE_CONTINUE], never for one that
    pruned or terminated; and unless the traversal returns
    [TRAVERSE_TERMINATE] every node that was entered with
    [TRAVERSE_CONTINUE] is also left through its [visitPost]. *)
Theorem visitPost_matches_visitPre (t : Tree) (s : St) :
  left (trace_of v t s) <= entered (trace_of v t s)
  /\ (fst (accept v t s) <> TRAVERSE_TERMINATE ->
      left (trace_of v t s) = entered (trace_of v t s)).
Proof.
  revert s.
  induction t as [n | n children IH] using TraversalLaws.Tree_children_ind;
    intros s.
  - rewrite trace_of_leaf. simpl. split; [lia | reflexivity].
  - rewrite trace_of_inner. simpl. unfold _accept.
    destruct (visitPre v n s) as [r s1]. simpl.
    destruct r; simpl; try (split; [lia | reflexivity]).
    rewrite left_app, entered_app.
    destruct (children_left_entered children IH TRAVERSE_CONTINUE s1)
      as [Hle Heq].
    destruct (accept_children (accept v) children TRAVERSE_CONTINUE s1)
      as [[r | result'] s2] eqn:Hloop; simpl.
    + rewrite (accept_children_returned _ _ _ _ _ _ Hloop).
      split; [lia | congruence].
    + rewrite (Heq _ _ eq_refl). split; [lia |]. intros _. lia.
Qed.

End Walk.

(** The walk of C2's counterexample without any prune: every node is
    reached, in pre-order. *)
Lemma continue_reaches_every_node_witness :
  reached (trace_of (answer_at TRAVERSE_PRUNE [])
             (Inner 0 [Inner 1 [Leaf 2; Leaf 3]; Leaf 4]) tt)
  = [0; 1; 2; 3; 4].
Proof.
  apply (continue_reaches_every_node (answer_at TRAVERSE_PRUNE [])
           (Inner 0 [Inner 1 [Leaf 2; Leaf 3]; Leaf 4]) tt).
  reflexivity.
Defined.


End TraversalTraceLaws.

(** ** The configs of a server *)
Module ServerConfigsLaws.
Import ServerCommands ServerConfigs.

Lemma erase_first_absent (config : Config) (configs : list Config) :
  config ∉ configs -> erase_first config configs = configs.
Proof.
  induction configs as [| c configs IH]; intros Hnot; simpl.
  - reflexivity.
  - apply not_elem_of_cons in Hnot as [Hne Hnot].
    destruct (decide (c = config)) as [-> | _]; [contradiction |].
    rewrite IH by assumption. reflexivity.
Qed.

Lemma erase_first_last (config : Config) (configs : list Config) :
  config ∉ configs -> erase_first config (configs ++ [config]) = configs.
Proof.
  induction configs as [| c configs IH]; intros Hnot; simpl.
  - destruct (decide (config = config)); [reflexivity | contradiction].
  - apply not_elem_of_cons in Hnot as [Hne Hnot].
    destruct (decide (c = config)) as [-> | _]; [contradiction |].
    rewrite IH by assumption. reflexivity.
Qed.

Lemma erase_first_other (config c : Config) (configs : list Config) :
  c <> config -> (c ∈ erase_first config configs <-> c ∈ configs).
Proof.
  intros Hne. induction configs as [| c' configs IH]; simpl; [reflexivity |].
  destruct (decide (c' = config)) as [-> | _].
  - rewrite elem_of_cons. tauto.
  - rewrite !elem_of_cons, IH. reflexivity.
Qed.

Lemma erase_first_sublist (config : Config) (configs : list Config) :
  erase_first config configs `sublist_of` configs.
Proof.
  induction configs as [| c configs IH]; simpl; [constructor |].
  destruct (decide (c = config)).
  - apply sublist_cons. reflexivity.
  - apply sublist_skip, IH.
Qed.

Lemma erase_first_gone (config : Config) (configs : list Config) :
  NoDup configs -> config ∉ erase_first config configs.
Proof.
  induction 1 as [| c configs Hc _ IH]; simpl.
  - apply not_elem_of_nil.
  - destruct (decide (c = config)) as [-> | Hne]; [exact Hc |].
    apply not_elem_of_cons. split; [congruence | exact IH].
Qed.

(** X5. A config that [_addConfig] has added is taken out again by
    [_removeConfig], which then returns [true] and leaves the server as
    it was before the addition; and while the config is in, the
    assertion of the server's destructor fails. *)
Theorem add_remove_config_round_trip {E : Type} (getServer : Config -> nat)
    (this : nat) (config : Config) (server server' : Server E) :
  _addConfig getServer this config server = Some server' ->
  _removeConfig config server' = (true, server)
  /\ Server_dtor server' = None.
Proof.
  unfold _addConfig, _removeConfig, Server_dtor, EQASSERT.
  destruct server as [configs e]. simpl.
  destruct (bool_decide (getServer config = this)); simpl; [| discriminate].
  destruct (bool_decide_reflect (config ∉ configs)) as [Hnot | _]; simpl;
    [| discriminate].
  intros [= <-]. simpl. split.
  - rewrite bool_decide_eq_true_2
      by (apply elem_of_app; right; apply list_elem_of_singleton; reflexivity).
    rewrite erase_first_last by assumption. reflexivity.
  - rewrite bool_decide_eq_false_2; [reflexivity |].
    intros Hnil. apply app_eq_nil in Hnil as [_ Hnil]. discriminate.
Qed.

(** X6. On a server whose configs are distinct, as the assertion of
    [_addConfig] keeps them, [_removeConfig] returns [true] exactly when
    the config is registered; afterwards the config is not registered (a
    second [_removeConfig] returns [false] and changes nothing), every
    other config is registered exactly if it was, in the order it was,
    and the configs are still distinct.  [_addConfig] keeps the configs
    distinct as well. *)
Theorem remove_config_spec {E : Type} (config : Config) (server : Server E) :
  NoDup (_configs server) ->
  let removed := _removeConfig config server in
  (fst removed = true <-> (config ∈ _configs server))
  /\ (config ∉ _configs (snd removed))
  /\ _removeConfig config (snd removed) = (false, snd removed)
  /\ (forall c : Config,
        c <> config ->
        (c ∈ _configs (snd removed) <-> c ∈ _configs server))
  /\ _configs (snd removed) `sublist_of` _configs server
  /\ NoDup (_configs (snd removed))
  /\ (forall (getServer : Config -> nat) (this : nat) (added : Config)
             (server' : Server E),
        _addConfig getServer this added server = Some server' ->
        NoDup (_configs server')).
Proof.
  intros Hdistinct removed. subst removed. unfold _removeConfig.
  assert (Hgone : config ∉ _configs
                    (if bool_decide (config ∈ _configs server)
                     then (true, mkServer (erase_first config (_configs server))
                                   (env server))
                     else (false, server)).2).
  { destruct (bool_decide_reflect (config ∈ _configs server)); simpl;
      [apply erase_first_gone |]; assumption. }
  split; [| split; [exact Hgone | split; [| split; [| split; [| split]]]]].
  - destruct (bool_decide_reflect (config ∈ _configs server)); simpl;
      split; intros; (reflexivity || assumption || discriminate
                      || contradiction).
  - rewrite bool_decide_eq_false_2 by exact Hgone. reflexivity.
  - intros c Hne.
    destruct (bool_decide (config ∈ _configs server)); simpl;
      [apply erase_first_other; assumption | reflexivity].
  - destruct (bool_decide (config ∈ _configs server)); simpl;
      [apply erase_first_sublist | reflexivity].
  - destruct (bool_decide (config ∈ _configs server)); simpl;
      [| assumption].
    eapply sublist_NoDup; [exact Hdistinct | apply erase_first_sublist].
  - intros getServer this added server'. unfold _addConfig, EQASSERT.
    destruct (bool_decide (getServer added = this)); simpl; [| discriminate].
    destruct (bool_decide_reflect (added ∉ _configs server)) as [Hnot | _];
      simpl; [| discriminate].
    intros [= <-]. simpl. apply NoDup_app. split; [assumption |].
    split; [| apply NoDup_singleton].
    intros c Hc Hc'. apply list_elem_of_singleton in Hc' as ->. contradiction.
Qed.

(** Config 7 is added to a server that holds config 3, and removed
    again. *)
Lemma add_remove_config_round_trip_witness :
  _removeConfig (mkConfig 7%N 0)
    (mkServer [mkConfig 3%N 0; mkConfig 7%N 0] tt)
  = (true, mkServer [mkConfig 3%N 0] tt).
Proof.
  apply (add_remove_config_round_trip (fun _ => 1) 1 (mkConfig 7%N 0)
           (mkServer [mkConfig 3%N 0] tt)
           (mkServer [mkConfig 3%N 0; mkConfig 7%N 0] tt)).
  reflexivity.
Defined.

(** Removing config 3 from a server that holds configs 3 and 7. *)
Lemma remove_config_spec_witness :
  _removeConfig (mkConfig 3%N 0)
    (snd (_removeConfig (mkConfig 3%N 0)
            (mkServer [mkConfig 3%N 0; mkConfig 7%N 0] tt)))
  = (false, mkServer [mkConfig 7%N 0] tt).
Proof.
  refine (proj1 (proj2 (proj2
            (remove_config_spec (mkConfig 3%N 0)
               (mkServer [mkConfig 3%N 0; mkConfig 7%N 0] tt) _)))).
  simpl. apply NoDup_cons. split.
  - intros H. apply list_elem_of_singleton in H. discriminate.
  - apply NoDup_singleton.
Defined.

End ServerConfigsLaws.

(** ** More on the frame-update pass *)
Module FrameUpdateMore.
Import Traversal FrameUpdate FrameUpdateLaws.

Section Pass.
Context {CS : Type} `{!CompoundOps CS}.
Variable frameNumber : N.

(** The visits stop at the first drawing compound without a channel. *)
Lemma visit_each_fails (order : list nat) :
  forall w : World CS,
    channels_present frameNumber order (compounds w) = false ->
    visit_each frameNumber order (Some w) = None.
Proof.
  induction order as [| c order IH]; intros w Hmissing; simpl in Hmissing.
  - discriminate.
  - unfold visit_each. cbn [foldl mbind option_bind].
    rewrite visit_unfold. cbn zeta.
    set (st' := visited frameNumber c (compounds w)) in *.
    destruct (draws c st'); simpl in *.
    + destruct (getChannel c st') as [channel |]; simpl in *.
      * apply (IH (mkWorld st' _ _) Hmissing).
      * apply visit_each_None.
    + apply (IH (mkWorld st' _ _) Hmissing).
Qed.



Lemma draw_participants_visited (channel : nat) (order : list nat) :
  forall (st : CS) (c : nat),
    c ∈ draw_participants frameNumber channel order st -> c ∈ order.
Proof.
  induction order as [| c' order IH]; intros st c Hin; simpl in Hin.
  - exact Hin.
  - apply elem_of_app in Hin as [Hin | Hin].
    + destruct (_ && _) in Hin; [| by apply elem_of_nil in Hin].
      apply list_elem_of_singleton in Hin as ->. by left.
    + right. exact (IH _ _ Hin).
Qed.

(** X8. After a pass the last draw compound of a channel is the one it
    had before or a compound of the tree that was walked: the pass never
    records anything else. *)
Theorem last_draw_compound_from_tree (t : Tree) (w w' : World CS)
    (r : VisitorResult) (channel c : nat) :
  updateData frameNumber t w = (r, Some w') ->
  getLastDrawCompound channel w' = Some c ->
  getLastDrawCompound channel w = Some c \/ c ∈ preorder t.
Proof.
  unfold updateData. rewrite (accept_is_visits frameNumber t (Some w)).
  intros [= _ Hrun] Hlast.
  destruct (channels_present frameNumber (preorder t) (compounds w))
    eqn:Hpresent.
  - destruct (visit_each_spec frameNumber (preorder t) w Hpresent)
      as (w1 & Hrun1 & _ & Hspec).
    rewrite Hrun in Hrun1. injection Hrun1 as <-.
    rewrite Hspec in Hlast.
    destruct (last _) as [c' |] eqn:Hc'; [| left; exact Hlast].
    injection Hlast as ->. right.
    apply last_Some_elem_of in Hc'.
    exact (draw_participants_visited _ _ _ _ Hc').
  - rewrite (visit_each_fails _ w Hpresent) in Hrun. discriminate.
Qed.

(** X9. A visit changes the last draw compound of no channel but the one
    its compound references. *)
Theorem visit_keeps_other_channels (c : nat) (w w' : World CS)
    (r : VisitorResult) (channel : nat) :
  visit frameNumber c w = Some (r, w') ->
  getChannel c (visited frameNumber c (compounds w)) <> Some channel ->
  getLastDrawCompound channel w' = getLastDrawCompound channel w.
Proof.
  rewrite visit_unfold. cbn zeta.
  destruct (draws c _); [destruct (getChannel c _) as [channel0 |] |];
    simpl; intros [= _ <-] Hother; try reflexivity.
  unfold getLastDrawCompound. simpl. apply lookup_insert_ne. congruence.
Qed.

End Pass.

(** Scenario 2 again: channel 7 ends with a compound of the tree, and the
    visit of the root leaves channel 8 alone. *)
Lemma last_draw_compound_from_tree_witness :
  exists w' : World (gmap nat CompoundData),
    @updateData _ sample_ops 1%N scenario_tree scenario_world
    = (TRAVERSE_CONTINUE, Some w')
    /\ getLastDrawCompound 7 w' = Some 1
    /\ (getLastDrawCompound 7 scenario_world = Some 1
        \/ 1 ∈ preorder scenario_tree).
Proof.
  eexists. split; [reflexivity |]. split; [reflexivity |].
  eapply (@last_draw_compound_from_tree _ sample_ops 1%N scenario_tree
            scenario_world _ TRAVERSE_CONTINUE 7 1); reflexivity.
Defined.

Lemma visit_keeps_other_channels_witness :
  exists w' : World (gmap nat CompoundData),
    @visit _ sample_ops 1%N 0
      (mkWorld scenario_compounds (<[8 := 5]> ∅) [])
    = Some (TRAVERSE_CONTINUE, w')
    /\ getLastDrawCompound 8 w' = Some 5.
Proof.
  eexists. split; [reflexivity |].
  rewrite (@visit_keeps_other_channels _ sample_ops 1%N 0
             (mkWorld scenario_compounds (<[8 := 5]> ∅) []) _
             TRAVERSE_CONTINUE 8 eq_refl).
  - reflexivity.
  - vm_compute. discriminate.
Defined.



End FrameUpdateMore.

(** ** More on the payload of a view *)
Module ViewObjectMore.
Import ViewObject ViewObjectLaws.

Section Payload.
Context {F : Type} `{!ViewBase F}.

(** One view through a stream, the frustum reading back what it wrote. *)
Lemma deserialize_serialize (v v0 : View F) (rest : DataStream)
    (dirtyBits : N) :
  frustum_reads_back F ->
  exists v' : View F,
    deserialize v0 (serialize v [] dirtyBits ++ rest) dirtyBits
    = Some (v', rest)
    /\ getViewport v'
       = (if viewport_dirty dirtyBits then getViewport v else getViewport v0).
Proof.
  intros Hfrustum. unfold serialize, deserialize, getViewport, put_viewport.
  simpl. destruct (viewport_dirty dirtyBits).
  - destruct (Hfrustum (frustum v) (frustum v0) dirtyBits
                ([ vp_x (_viewport v); vp_y (_viewport v);
                   vp_w (_viewport v); vp_h (_viewport v) ] ++ rest))
      as (f' & Hread).
    rewrite <- app_assoc, Hread. simpl. eexists. split; [reflexivity |].
    destruct (_viewport v); reflexivity.
  - destruct (Hfrustum (frustum v) (frustum v0) dirtyBits rest)
      as (f' & Hread).
    rewrite Hread. simpl. eexists. split; reflexivity.
Qed.

Lemma serialize_appends (v : View F) (os : DataStream) (dirtyBits : N) :
  serialize v os dirtyBits = os ++ serialize v [] dirtyBits.
Proof.
  unfold serialize, put_viewport. simpl.
  destruct (viewport_dirty dirtyBits); rewrite ?app_assoc; reflexivity.
Qed.

(** X11. [View::serialize] only appends to the stream it is given, so
    views serialized one after the other, each with its own mask, are
    read back one after the other by [View::deserialize] with the same
    masks: the first read stops exactly where the second payload begins,
    the second empties the stream, and each restores the viewport whose
    mask has the viewport bit. *)
Theorem two_views_through_one_stream (v1 v2 u1 u2 : View F)
    (os : DataStream) (dirty1 dirty2 : N) :
  frustum_reads_back F ->
  serialize v2 (serialize v1 os dirty1) dirty2
  = os ++ serialize v1 [] dirty1 ++ serialize v2 [] dirty2
  /\ exists r1 r2 : View F,
       deserialize u1 (serialize v2 (serialize v1 [] dirty1) dirty2) dirty1
       = Some (r1, serialize v2 [] dirty2)
       /\ deserialize u2 (serialize v2 [] dirty2) dirty2 = Some (r2, [])
       /\ getViewport r1
          = (if N.testbit dirty1 viewport_bit
             then getViewport v1 else getViewport u1)
       /\ getViewport r2
          = (if N.testbit dirty2 viewport_bit
             then getViewport v2 else getViewport u2).
Proof.
  intros Hfrustum. split.
  - rewrite (serialize_appends v2), (serialize_appends v1), app_assoc.
    reflexivity.
  - destruct (deserialize_serialize v1 u1 (serialize v2 [] dirty2) dirty1
                Hfrustum) as (r1 & Hread1 & Hvp1).
    destruct (deserialize_serialize v2 u2 [] dirty2 Hfrustum)
      as (r2 & Hread2 & Hvp2).
    rewrite app_nil_r in Hread2. rewrite viewport_dirty_testbit in Hvp1, Hvp2.
    exists r1, r2. rewrite (serialize_appends v2). auto.
Qed.

End Payload.

(** A full view followed by a frustum-only delta. *)
Lemma two_views_through_one_stream_witness :
  @serialize N sample_base (mkView 6%N (mkViewport 9 9 9 9) None)
    (@serialize N sample_base (mkView 5%N (mkViewport 1 2 3 4) None) [] 9%N)
    1%N
  = [5; 1; 2; 3; 4; 6]%N
  /\ exists r1 r2 : View N,
       @deserialize N sample_base (mkView 0%N (mkViewport 0 0 0 0) None)
         [5; 1; 2; 3; 4; 6]%N 9%N
       = Some (r1, [6%N])
       /\ @deserialize N sample_base (mkView 0%N (mkViewport 7 7 7 7) None)
            [6%N] 1%N
          = Some (r2, [])
       /\ getViewport r1 = mkViewport 1 2 3 4
       /\ getViewport r2 = mkViewport 7 7 7 7.
Proof.
  destruct (@two_views_through_one_stream N sample_base
              (mkView 5%N (mkViewport 1 2 3 4) None)
              (mkView 6%N (mkViewport 9 9 9 9) None)
              (mkView 0%N (mkViewport 0 0 0 0) None)
              (mkView 0%N (mkViewport 7 7 7 7) None)
              [] 9%N 1%N sample_base_reads_back)
    as (Hstream & r1 & r2 & Hread1 & Hread2 & Hvp1 & Hvp2).
  split; [exact Hstream |]. exists r1, r2. auto.
Defined.

End ViewObjectMore.

(** ** More on the atomic primitive *)
Module AtomicsMore.
Import Atomics.

(** X12. After a [compareAndSwap( addr, old, nw )] with [old] different
    from [nw] the cell does not hold [old], whether the swap went through
    or not; so the same call made again at once returns [false] and
    leaves memory as it is: of two such calls in a row at most the first
    succeeds. *)
Theorem compareAndSwap_again_fails {V : Type} `{!EqDecision V}
    (st st1 : Emulation V) (addr : N) (old nw : V) (swapped : bool) :
  old <> nw ->
  compareAndSwap addr old nw st = Some (swapped, st1) ->
  memory st1 !! addr <> Some old
  /\ compareAndSwap addr old nw st1 = Some (false, st1).
Proof.
  intros Hne. unfold compareAndSwap, lock, unlock.
  destruct (guard st); simpl; [discriminate |].
  destruct (memory st !! addr) as [cell |] eqn:Hcell; simpl; [| discriminate].
  destruct (decide (cell = old)) as [-> | Hcell'];
    intros [= <- <-]; simpl.
  - rewrite lookup_insert_eq. simpl.
    destruct (decide (nw = old)); [congruence |].
    split; [congruence | reflexivity].
  - rewrite Hcell. simpl.
    destruct (decide (cell = old)); [contradiction |].
    split; [congruence | reflexivity].
Qed.

(** X13. [compareAndSwap] neither creates nor removes a cell, whatever it
    returns, and called with [old] equal to [nw] it leaves every cell as
    it is. *)
Theorem compareAndSwap_keeps_cells {V : Type} `{!EqDecision V}
    (st st' : Emulation V) (addr : N) (old nw : V) (swapped : bool) :
  compareAndSwap addr old nw st = Some (swapped, st') ->
  dom (memory st') = dom (memory st)
  /\ (old = nw -> memory st' = memory st).
Proof.
  unfold compareAndSwap, lock, unlock.
  destruct (guard st); simpl; [discriminate |].
  destruct (memory st !! addr) as [cell |] eqn:Hcell; simpl; [| discriminate].
  destruct (decide (cell = old)) as [-> | Hcell'];
    intros [= <- <-]; simpl.
  - split.
    + apply dom_insert_lookup_L. eauto.
    + intros <-. apply insert_id. exact Hcell.
  - split; reflexivity.
Qed.

(** Two swaps from 1 to 2 in a row on a cell that holds 1. *)
Lemma compareAndSwap_again_fails_witness :
  compareAndSwap 8%N 1 2 (mkEmulation false (<[8%N := 2]> (<[8%N := 1]> ∅)))
  = Some (false, mkEmulation false (<[8%N := 2]> (<[8%N := 1]> ∅))).
Proof.
  refine (proj2 (compareAndSwap_again_fails
                   (mkEmulation false (<[8%N := 1]> ∅))
                   (mkEmulation false (<[8%N := 2]> (<[8%N := 1]> ∅)))
                   8%N 1 2 true _ _)).
  - discriminate.
  - reflexivity.
Defined.

Lemma compareAndSwap_keeps_cells_witness :
  dom (<[8%N := 2]> (<[8%N := 1]> (∅ : gmap N nat)))
  = dom (<[8%N := 1]> (∅ : gmap N nat)).
Proof.
  refine (proj1 (compareAndSwap_keeps_cells
                   (mkEmulation false (<[8%N := 1]> ∅))
                   (mkEmulation false (<[8%N := 2]> (<[8%N := 1]> ∅)))
                   8%N 1 2 true _)).
  reflexivity.
Defined.

End AtomicsMore.

(** ** The eye passes *)
Module EyePassLaws.
Import Ascii.
Import (notations) String.
Import EyePass.

(** X14. The output operator of [Eye] writes a name exactly for the
    values below [EYE_ALL], the three eye passes; [EYE_ALL] itself and
    every value that is no enumerator reach [EQABORT] with nothing
    written.  What is written extends the stream, and it is a different
    name for each pass. *)
Theorem eye_printed_iff_pass (os : list ascii) (eye : N) :
  ((exists out, print_eye os eye = Written out) <-> (eye < EYE_ALL)%N)
  /\ (forall out, print_eye os eye = Written out ->
        exists name, name <> [] /\ out = os ++ name)
  /\ (forall eye' out,
        print_eye os eye = Written out ->
        print_eye os eye' = Written out ->
        eye = eye').
Proof.
  unfold print_eye, EYE_ALL, EYE_LEFT, EYE_RIGHT, EYE_CYCLOP.
  split; [| split].
  - destruct (N.eqb_spec eye 1) as [-> | H1]; [split; [reflexivity | eauto] |].
    destruct (N.eqb_spec eye 2) as [-> | H2]; [split; [reflexivity | eauto] |].
    destruct (N.eqb_spec eye 0) as [-> | H0]; [split; [reflexivity | eauto] |].
    split; [intros [out Hout]; discriminate | lia].
  - intros out.
    destruct (eye =? 1)%N; [| destruct (eye =? 2)%N;
                                [| destruct (eye =? 0)%N]];
      intros [= <-] || discriminate; eexists; (split; [| reflexivity]);
      discriminate.
  - intros eye' out.
    destruct (N.eqb_spec eye 1) as [-> | _];
      [| destruct (N.eqb_spec eye 2) as [-> | _];
         [| destruct (N.eqb_spec eye 0) as [-> | _]; [| discriminate]]];
      (destruct (N.eqb_spec eye' 1) as [-> | _];
       [| destruct (N.eqb_spec eye' 2) as [-> | _];
          [| destruct (N.eqb_spec eye' 0) as [-> | _]; [| discriminate]]]);
      intros Hout Hout'; try reflexivity;
      rewrite <- Hout in Hout'; injection Hout' as Heq;
      apply app_inv_head in Heq; discriminate.
Qed.

End EyePassLaws.

(** ** Printing a swap barrier *)
Module SwapBarrierPrintLaws.
Import Ascii.
Import (notations) String.
Import SwapBarrierPrint.

(** X15. Printing a null swap barrier leaves the stream as it is;
    printing a barrier extends the stream, and two barriers print the
    same only when they have the same name. *)
Theorem swapBarrier_print_spec (os : list ascii) :
  print_swapBarrier os None = os
  /\ (forall name, exists text,
        text <> [] /\ print_swapBarrier os (Some name) = os ++ text)
  /\ (forall name1 name2,
        print_swapBarrier os (Some name1) = print_swapBarrier os (Some name2)
        -> name1 = name2).
Proof.
  split; [reflexivity |]. split.
  - intros name. eexists. split; [| reflexivity]. discriminate.
  - intros name1 name2 Heq. unfold print_swapBarrier in Heq.
    apply app_inv_head, app_inv_head in Heq. simpl in Heq.
    injection Heq as Heq. exact (app_inv_tail _ _ _ Heq).
Qed.

End SwapBarrierPrintLaws.

(** ** The attributes of a channel *)
Module ChannelAttributesLaws.
Import ChannelAttributes.

(** X16. An attribute of the array that is set reads back as the value
    set, every other attribute reads as before, and the array keeps its
    size; setting two different attributes comes to the same in either
    order, and of two values set on one attribute the second stays. *)
Theorem channel_attribute_store (attr other : nat) (value value' : Z)
    (attrs : list Z) :
  attr < length attrs ->
  exists attrs' : list Z,
    setIAttribute attr value attrs = Some attrs'
    /\ getIAttribute attr attrs' = Some value
    /\ length attrs' = length attrs
    /\ (other <> attr -> getIAttribute other attrs' = getIAttribute other attrs)
    /\ (other <> attr ->
        setIAttribute other value' attrs'
        = setIAttribute other value' attrs ≫= setIAttribute attr value)
    /\ setIAttribute attr value' attrs'
       = setIAttribute attr value' attrs.
Proof.
  intros Hattr. unfold setIAttribute, getIAttribute.
  exists (<[attr := value]> attrs).
  destruct (decide (attr < length attrs)) as [_ | Hno]; [| contradiction].
  split; [reflexivity |].
  split; [apply list_lookup_insert_eq; assumption |].
  split; [apply length_insert |].
  split; [intros Hne; apply list_lookup_insert_ne; congruence |].
  split.
  - intros Hne. simpl. rewrite length_insert.
    destruct (decide (other < length attrs)) as [Hother | _]; simpl;
      [| reflexivity].
    rewrite length_insert.
    destruct (decide (attr < length attrs)) as [_ | Hno]; [| contradiction].
    f_equal. apply list_insert_insert_ne. congruence.
  - rewrite length_insert.
    destruct (decide (attr < length attrs)) as [_ | Hno]; [| contradiction].
    f_equal. apply list_insert_insert_eq.
Qed.

(** Attribute 1 of four is set to 5. *)
Lemma channel_attribute_store_witness :
  setIAttribute 1 5 [0; 0; 0; 0]%Z = Some [0; 5; 0; 0]%Z
  /\ exists attrs' : list Z,
       setIAttribute 1 5 [0; 0; 0; 0]%Z = Some attrs'
       /\ getIAttribute 1 attrs' = Some 5%Z.
Proof.
  split; [reflexivity |].
  destruct (channel_attribute_store 1 0 5 0 [0; 0; 0; 0]%Z)
    as (attrs' & Hset & Hget & _); [simpl; lia |].
  exists attrs'. split; assumption.
Defined.

End ChannelAttributesLaws.

(** ** More on the config commands *)
Module ServerCommandsMore.
Import ServerCommands.

(** X17. When the destroy-config handler returns, it has unmapped and
    then released one config, which was registered with the server and
    has the id the packet names: a config with another id is never
    released, and nothing is released when no config has that id. *)
Theorem destroy_releases_named_config {E : Type} `{!Collaborators E}
    (command : Command ServerDestroyConfigPacket) (server server' : Server E)
    (handled : bool) (replies : Sent) :
  _cmdDestroyConfig command server = Some (handled, server', replies) ->
  exists config : Config,
    config ∈ _configs server
    /\ getID config = configID (packet command)
    /\ server' = releaseConfig config (unmapObject config server)
    /\ handled = true.
Proof.
  unfold _cmdDestroyConfig, find_config, EQASSERT.
  destruct (find _ (_configs server)) as [config |] eqn:Hfind;
    [| rewrite (bool_decide_eq_false_2 (is_Some None))
         by (intros [? ?]; discriminate);
       discriminate].
  rewrite (bool_decide_eq_true_2 (is_Some (Some config))) by eauto.
  cbn [mbind option_bind].
  apply find_some in Hfind as [Hin Hid].
  apply bool_decide_eq_true in Hid. apply list_elem_of_In in Hin.
  intros Hrun. exists config.
  destruct (bool_decide (_ ≠ _)); injection Hrun as <- <- _; auto.
Qed.

(** Config 7 of two is destroyed on request of node 4. *)
Lemma destroy_releases_named_config_witness :
  exists config : Config,
    config ∈ [mkConfig 3%N 0; mkConfig 7%N 0]
    /\ getID config = 7%N
    /\ mkServer [mkConfig 3%N 0] 9%N
       = @releaseConfig N sample_env config
           (@unmapObject N sample_env config
              (mkServer [mkConfig 3%N 0; mkConfig 7%N 0] 9%N)).
Proof.
  destruct (@destroy_releases_named_config N sample_env
              (mkCommand (mkDestroyPacket 7%N 21%N) 4)
              (mkServer [mkConfig 3%N 0; mkConfig 7%N 0] 9%N)
              (mkServer [mkConfig 3%N 0] 9%N) true
              [(4, mkReply CMD_SERVER_DESTROY_CONFIG_REPLY 21%N)] eq_refl)
    as (config & Hin & Hid & Hserver & _).
  exists config. auto.
Defined.

End ServerCommandsMore.
